(** * OpenMC: spatial source distributions and the particle record

    A shallow embedding of [src/distribution_spatial.cpp] and of the
    [Particle] class declared in [include/openmc/particle.h].

    Conventions of the embedding.
    - A C++ [double] is a type [D] with an instance of the class [Double]
      below.  Code that only moves numbers around is stated for every such
      type; whatever depends on the arithmetic is stated for [float],
      Rocq's primitive IEEE 754 binary64 numbers, which is what the
      compiled program computes with.
    - [openmc::fatal_error] prints its message and ends the process; it is
      the constructor [Fatal] of the type [result].
    - [prn()] advances a process-wide seed and returns a number; it is a
      function from the seed to a number and the next seed, and the code
      that calls it is written in a state monad over the seed. *)

From Stdlib Require Import ZArith List Lia Bool PrimFloat Floats.
From stdpp Require Import base list strings.

Local Open Scope string_scope.

(** ** Numbers *)

Class Double (D : Type) := {
  d_zero : D;                 (* the literal 0.0 *)
  d_one : D;                  (* the literal 1.0 *)
  d_add : D -> D -> D;
  d_sub : D -> D -> D;
  d_mul : D -> D -> D;
  d_leb : D -> D -> bool;     (* a <= b *)
  d_ltb : D -> D -> bool      (* a < b *)
}.

(** [cos] and [sin] of <cmath>. *)
Class Trig (D : Type) := {
  d_cos : D -> D;
  d_sin : D -> D
}.

#[global] Instance float_Double : Double float := {|
  d_zero := PrimFloat.zero;
  d_one := PrimFloat.one;
  d_add := PrimFloat.add;
  d_sub := PrimFloat.sub;
  d_mul := PrimFloat.mul;
  d_leb := PrimFloat.leb;
  d_ltb := PrimFloat.ltb
|}.

(** ** Errors and the seed monad *)

Inductive result (A : Type) : Type :=
| Ok (a : A)
| Fatal (msg : string).
Arguments Ok {A} a.
Arguments Fatal {A} msg.

Definition fatal_error {A : Type} (msg : string) : result A := Fatal msg.

Definition rbind {A B : Type} (r : result A) (k : A -> result B) : result B :=
  match r with
  | Ok a => k a
  | Fatal msg => Fatal msg
  end.

(** Code that reads and advances the seed of the random stream. *)
Definition Rand (S A : Type) : Type := S -> A * S.

Definition ret {S A : Type} (a : A) : Rand S A := fun s => (a, s).

Definition bind {S A B : Type} (m : Rand S A) (k : A -> Rand S B) : Rand S B :=
  fun s => let (a, s') := m s in k a s'.

Declare Scope rand_scope.
Delimit Scope rand_scope with rand.
Notation "x <- m ;; k" := (bind m (fun x => k))
  (at level 100, m at next level, right associativity) : rand_scope.

(** The stream of random_lcg.h, which is not in src: [prn] returns the next
    number and the advanced seed. *)
Class Rng (D S : Type) := { prn : Rand S D }.

(** [k] successive calls of [prn], results dropped: the seed after [k]
    draws. *)
Fixpoint advance {D S : Type} `{Rng D S} (k : nat) (s : S) : S :=
  match k with
  | O => s
  | Datatypes.S k' => advance k' (snd (prn s))
  end.

(** ** Position (position.h) *)

Module Position.

Record t (D : Type) : Type := mk { x : D; y : D; z : D }.
Arguments mk {D} x y z.
Arguments x {D} _.
Arguments y {D} _.
Arguments z {D} _.

Section Ops.
Context {D : Type} `{Double D}.

(** Modelled from the spec: position.h is not in src; [a + b] between two
    positions acts on each component (the box sampler "linearly
    interpolates component-wise"). *)
Definition add (a b : t D) : t D :=
  mk (d_add (x a) (x b)) (d_add (y a) (y b)) (d_add (z a) (z b)).

(** Modelled from the spec: [a - b], on each component. *)
Definition sub (a b : t D) : t D :=
  mk (d_sub (x a) (x b)) (d_sub (y a) (y b)) (d_sub (z a) (z b)).

(** Modelled from the spec: [a * b], on each component. *)
Definition mul (a b : t D) : t D :=
  mk (d_mul (x a) (x b)) (d_mul (y a) (y b)) (d_mul (z a) (z b)).

(** [Position{params.data()}]: the first three elements of an array. *)
Definition of_array (a : list D) : t D :=
  mk (nth 0 a d_zero) (nth 1 a d_zero) (nth 2 a d_zero).

End Ops.
End Position.

(** ** One-dimensional distributions (distribution.h) *)

(** [Distribution] is an abstract class with one virtual method,
    [double sample() const], which may draw from the stream. *)
Record Distribution (D S : Type) : Type :=
  { Distribution_sample : Rand S D }.
Arguments Distribution_sample {D S} _.

(** Modelled from the spec: the class [Discrete] is not in src.  The only
    form the constructors below build, [Discrete{x, p, 1}] with the single
    point [x[0]] of probability [p[0]], is "a fixed-point sampler": it
    returns [x[0]] and draws nothing. *)
Definition Discrete {D S : Type} `{Double D} (x p : list D) (n : nat)
  : Distribution D S :=
  {| Distribution_sample := ret (nth 0 x d_zero) |}.

(** ** The configuration tree (pugixml, xml_interface.h) *)

(** The helpers the constructors call; none of them is in src.
    [get_node_array] and [distribution_from_xml] may end the process with
    a fatal error of their own. *)
Class Xml (D S node : Type) := {
  check_for_node : node -> string -> bool;
  child : node -> string -> node;
  get_node_array : node -> string -> result (list D);
  distribution_from_xml : node -> result (Distribution D S)
}.

Declare Scope result_scope.
Delimit Scope result_scope with result.
Notation "x <- m ;; k" := (rbind m (fun x => k))
  (at level 100, m at next level, right associativity) : result_scope.

(** ** CartesianIndependent *)

Module CartesianIndependent.

Record t (D S : Type) : Type := mk {
  x_ : Distribution D S;
  y_ : Distribution D S;
  z_ : Distribution D S
}.
Arguments mk {D S} _ _ _.
Arguments x_ {D S} _.
Arguments y_ {D S} _.
Arguments z_ {D S} _.

Section Impl.
Context {D S node : Type} `{Double D} `{Xml D S node}.

Definition CartesianIndependent (nd : node) : result (t D S) :=
  (x <- (if check_for_node nd "x"
         then distribution_from_xml (child nd "x")
         else Ok (Discrete [d_zero] [d_one] 1)) ;;
   y <- (if check_for_node nd "y"
         then distribution_from_xml (child nd "y")
         else Ok (Discrete [d_zero] [d_one] 1)) ;;
   z <- (if check_for_node nd "z"
         then distribution_from_xml (child nd "z")
         else Ok (Discrete [d_zero] [d_one] 1)) ;;
   Ok (mk x y z))%result.

Definition sample (this : t D S) : Rand S (Position.t D) :=
  (x <- Distribution_sample (x_ this) ;;
   y <- Distribution_sample (y_ this) ;;
   z <- Distribution_sample (z_ this) ;;
   ret (Position.mk x y z))%rand.

End Impl.
End CartesianIndependent.

(** ** CylindricalIndependent *)

Module CylindricalIndependent.

Record t (D S : Type) : Type := mk {
  r_ : Distribution D S;
  theta_ : Distribution D S;
  z_ : Distribution D S
}.
Arguments mk {D S} _ _ _.
Arguments r_ {D S} _.
Arguments theta_ {D S} _.
Arguments z_ {D S} _.

Section Impl.
Context {D S node : Type} `{Double D} `{Trig D} `{Xml D S node}.

Definition CylindricalIndependent (nd : node) : result (t D S) :=
  (r <- (if check_for_node nd "r"
         then distribution_from_xml (child nd "r")
         else Ok (Discrete [d_zero] [d_one] 1)) ;;
   theta <- (if check_for_node nd "theta"
             then distribution_from_xml (child nd "theta")
             else Ok (Discrete [d_zero] [d_one] 1)) ;;
   z <- (if check_for_node nd "z"
         then distribution_from_xml (child nd "z")
         else Ok (Discrete [d_zero] [d_one] 1)) ;;
   Ok (mk r theta z))%result.

Definition sample (this : t D S) : Rand S (Position.t D) :=
  (r <- Distribution_sample (r_ this) ;;
   theta <- Distribution_sample (theta_ this) ;;
   z <- Distribution_sample (z_ this) ;;
   ret (Position.mk (d_mul r (d_cos theta)) (d_mul r (d_sin theta)) z))%rand.

End Impl.
End CylindricalIndependent.

(** ** SpatialBox *)

Module SpatialBox.

Record t (D : Type) : Type := mk {
  only_fissionable_ : bool;
  lower_left_ : Position.t D;
  upper_right_ : Position.t D
}.
Arguments mk {D} _ _ _.
Arguments only_fissionable_ {D} _.
Arguments lower_left_ {D} _.
Arguments upper_right_ {D} _.

Section Impl.
Context {D S node : Type} `{Double D} `{Rng D S} `{Xml D S node}.

Definition SpatialBox (nd : node) (fission : bool) : result (t D) :=
  (params <- get_node_array nd "parameters" ;;
   if negb (length params =? 6)%nat
   then fatal_error
          "Box/fission spatial source must have six parameters specified."
   else Ok (mk fission
              (Position.mk (nth 0 params d_zero) (nth 1 params d_zero)
                           (nth 2 params d_zero))
              (Position.mk (nth 3 params d_zero) (nth 4 params d_zero)
                           (nth 5 params d_zero))))%result.

Definition sample (this : t D) : Rand S (Position.t D) :=
  (xi1 <- prn ;;
   xi2 <- prn ;;
   xi3 <- prn ;;
   let xi := Position.mk xi1 xi2 xi3 in
   ret (Position.add (lower_left_ this)
          (Position.mul xi
             (Position.sub (upper_right_ this) (lower_left_ this)))))%rand.

End Impl.
End SpatialBox.

(** ** SpatialPoint *)

Module SpatialPoint.

Record t (D : Type) : Type := mk { r_ : Position.t D }.
Arguments mk {D} _.
Arguments r_ {D} _.

Section Impl.
Context {D S node : Type} `{Double D} `{Xml D S node}.

Definition SpatialPoint (nd : node) : result (t D) :=
  (params <- get_node_array nd "parameters" ;;
   if negb (length params =? 3)%nat
   then fatal_error
          "Point spatial source must have three parameters specified."
   else Ok (mk (Position.of_array params)))%result.

Definition sample (this : t D) : Rand S (Position.t D) :=
  ret (r_ this).

End Impl.
End SpatialPoint.

(** ** The family of spatial distributions (distribution_spatial.h) *)

(** The abstract class [SpatialDistribution], with its virtual method
    [Position sample() const], as a tagged variant of its four
    subclasses. *)
Inductive SpatialDistribution (D S : Type) : Type :=
| Cartesian (c : CartesianIndependent.t D S)
| Cylindrical (c : CylindricalIndependent.t D S)
| Box (b : SpatialBox.t D)
| Point (p : SpatialPoint.t D).
Arguments Cartesian {D S} c.
Arguments Cylindrical {D S} c.
Arguments Box {D S} b.
Arguments Point {D S} p.

Section Family.
Context {D S : Type} `{Double D} `{Trig D} `{Rng D S}.

Definition SpatialDistribution_sample (this : SpatialDistribution D S)
  : Rand S (Position.t D) :=
  match this with
  | Cartesian c => CartesianIndependent.sample c
  | Cylindrical c => CylindricalIndependent.sample c
  | Box b => SpatialBox.sample b
  | Point p => SpatialPoint.sample p
  end.

(** What a call [dist->sample()] can reach: the object the method is
    called on and the seed of the stream. *)
Record Memory : Type := mkMemory {
  object : SpatialDistribution D S;
  seed : S
}.

(** The call [object->sample()] as a step on the memory. *)
Definition call_sample (m : Memory) : Position.t D * Memory :=
  let (p, s') := SpatialDistribution_sample (object m) (seed m) in
  (p, {| object := object m; seed := s' |}).

End Family.
Arguments Memory D S : clear implicits.
Arguments mkMemory {D S} _ _.
Arguments object {D S} _.
Arguments seed {D S} _.

(** [n] successive calls of the same sampler, results in call order. *)
Fixpoint draws {S A : Type} (n : nat) (m : Rand S A) : Rand S (list A) :=
  match n with
  | O => ret []
  | Datatypes.S n' => (a <- m ;; l <- draws n' m ;; ret (a :: l))%rand
  end.

(** The [k]-th number of the stream that starts at seed [s] (from 0). *)
Definition stream_nth {D S : Type} `{Rng D S} (k : nat) (s : S) : D :=
  fst (prn (advance k s)).

(** ** A concrete configuration tree and concrete streams *)

(** An XML element: attributes that hold arrays of numbers, and named
    child elements. *)
#[warnings="-register-all"]
Inductive xml_tree (D : Type) : Type :=
| XmlTree (attributes : list (string * list D))
          (children : list (string * xml_tree D)).
Arguments XmlTree {D} attributes children.

Definition assoc {A : Type} (name : string) (l : list (string * A))
  : option A :=
  snd <$> List.find (fun kv => String.eqb (fst kv) name) l.

Definition tree_attributes {D : Type} (t : xml_tree D) :=
  match t with XmlTree a _ => a end.

Definition tree_children {D : Type} (t : xml_tree D) :=
  match t with XmlTree _ c => c end.

(** An instance of the helpers on [xml_tree]: a missing attribute is a
    fatal error, a missing child is the empty element, and a
    one-dimensional distribution is read as the single point given by the
    first number of its [parameters]. *)
#[global] Instance tree_Xml {D S : Type} `{Double D} : Xml D S (xml_tree D) := {|
  check_for_node := fun t name =>
    match assoc name (tree_attributes t), assoc name (tree_children t) with
    | None, None => false
    | _, _ => true
    end;
  child := fun t name =>
    match assoc name (tree_children t) with
    | Some c => c
    | None => XmlTree [] []
    end;
  get_node_array := fun t name =>
    match assoc name (tree_attributes t) with
    | Some a => Ok a
    | None => fatal_error "Node is not a member of the XML element."
    end;
  distribution_from_xml := fun t =>
    match assoc "parameters" (tree_attributes t) with
    | Some (v :: _) => Ok (Discrete [v] [d_one] 1)
    | _ => fatal_error "Invalid distribution."
    end
|}.

(** A stream over binary64 that returns 1/2 forever; the seed counts the
    draws. *)
#[global] Instance half_Rng_float : Rng float nat :=
  {| prn := fun s => (0.5%float, Datatypes.S s) |}.

(** ** particle.h: constants and data *)

Definition MAX_DELAYED_GROUPS : Z := 8.
Definition MAX_SECONDARY : Z := 1000.
Definition MAX_LOST_PARTICLES : Z := 10.

Inductive ParticleType : Type := neutron | photon | electron | positron.

(** [static_cast<int>] of the enumeration. *)
Definition ParticleType_to_int (t : ParticleType) : Z :=
  match t with
  | neutron => 0
  | photon => 1
  | electron => 2
  | positron => 3
  end.

(** A [double[3]] holding a position or a direction is a [Position.t]. *)
Record LocalCoord (D : Type) : Type := mkLocalCoord {
  cell : Z;
  universe : Z;
  lattice : Z;
  lattice_x : Z;
  lattice_y : Z;
  lattice_z : Z;
  xyz : Position.t D;
  uvw : Position.t D;
  rotated : bool
}.
Arguments mkLocalCoord {D} _ _ _ _ _ _ _ _ _.
Arguments cell {D} _.
Arguments universe {D} _.
Arguments lattice {D} _.
Arguments lattice_x {D} _.
Arguments lattice_y {D} _.
Arguments lattice_z {D} _.
Arguments xyz {D} _.
Arguments uvw {D} _.
Arguments rotated {D} _.

(** Modelled from the spec: the struct [Bank] (capi.h) is not in src.  A
    Source Record holds "position, direction, energy (continuous value or
    discrete group index), statistical weight, particle kind,
    delayed-group tag"; [Bank_E] is the energy, read as a value or as a
    group index by the run mode. *)
Record Bank (D : Type) : Type := mkBank {
  Bank_xyz : Position.t D;
  Bank_uvw : Position.t D;
  Bank_E : D;
  Bank_wgt : D;
  Bank_particle : Z;
  Bank_delayed_group : Z
}.
Arguments mkBank {D} _ _ _ _ _ _.
Arguments Bank_xyz {D} _.
Arguments Bank_uvw {D} _.
Arguments Bank_E {D} _.
Arguments Bank_wgt {D} _.
Arguments Bank_particle {D} _.
Arguments Bank_delayed_group {D} _.

(** Modelled from the spec: the body of [LocalCoord::reset] is not in src.
    "Reset of a level returns it to a canonical unset state (all handles
    invalid, not rotated)"; the invalid handle is the [-1] of the member
    initialisers. *)
Definition LocalCoord_reset {D : Type} (c : LocalCoord D) : LocalCoord D :=
  mkLocalCoord (-1) (-1) (-1) (-1) (-1) (-1) (xyz c) (uvw c) false.

(** Modelled from the spec: what lies outside the particle and outlives a
    call, none of it in src: the warnings printed, the restart files
    written, and "a global lost-particle counter, incremented when
    mark_as_lost fires". *)
Record World (P : Type) : Type := mkWorld {
  warnings : list string;
  restart_files : list P;
  n_lost_particles : Z
}.
Arguments mkWorld {P} _ _ _.
Arguments warnings {P} _.
Arguments restart_files {P} _.
Arguments n_lost_particles {P} _.

Module Particle.

Record t (D : Type) : Type := mk {
  id_ : Z;
  type_ : Z;
  n_coord_ : Z;
  cell_instance_ : Z;
  coord_ : list (LocalCoord D);          (* LocalCoord coord_[MAX_COORD] *)
  last_n_coord_ : Z;
  last_cell_ : list Z;                   (* int last_cell_[MAX_COORD] *)
  E_ : D;
  last_E_ : D;
  g_ : Z;
  last_g_ : Z;
  wgt_ : D;
  mu_ : D;
  alive_ : bool;
  last_xyz_current_ : Position.t D;
  last_xyz_ : Position.t D;
  last_uvw_ : Position.t D;
  last_wgt_ : D;
  absorb_wgt_ : D;
  fission_ : bool;
  event_ : Z;
  event_nuclide_ : Z;
  event_mt_ : Z;
  delayed_group_ : Z;
  n_bank_ : Z;
  wgt_bank_ : D;
  n_delayed_bank_ : list Z;              (* int [MAX_DELAYED_GROUPS] *)
  surface_ : Z;
  cell_born_ : Z;
  material_ : Z;
  last_material_ : Z;
  sqrtkT_ : D;
  last_sqrtkT_ : D;
  n_collision_ : Z;
  write_track_ : bool;
  n_secondary_ : Z;
  secondary_bank_ : list (Bank D)        (* Bank [MAX_SECONDARY] *)
}.
Arguments mk {D}.
Arguments id_ {D} _.
Arguments type_ {D} _.
Arguments n_coord_ {D} _.
Arguments cell_instance_ {D} _.
Arguments coord_ {D} _.
Arguments last_n_coord_ {D} _.
Arguments last_cell_ {D} _.
Arguments E_ {D} _.
Arguments last_E_ {D} _.
Arguments g_ {D} _.
Arguments last_g_ {D} _.
Arguments wgt_ {D} _.
Arguments mu_ {D} _.
Arguments alive_ {D} _.
Arguments last_xyz_current_ {D} _.
Arguments last_xyz_ {D} _.
Arguments last_uvw_ {D} _.
Arguments last_wgt_ {D} _.
Arguments absorb_wgt_ {D} _.
Arguments fission_ {D} _.
Arguments event_ {D} _.
Arguments event_nuclide_ {D} _.
Arguments event_mt_ {D} _.
Arguments delayed_group_ {D} _.
Arguments n_bank_ {D} _.
Arguments wgt_bank_ {D} _.
Arguments n_delayed_bank_ {D} _.
Arguments surface_ {D} _.
Arguments cell_born_ {D} _.
Arguments material_ {D} _.
Arguments last_material_ {D} _.
Arguments sqrtkT_ {D} _.
Arguments last_sqrtkT_ {D} _.
Arguments n_collision_ {D} _.
Arguments write_track_ {D} _.
Arguments n_secondary_ {D} _.
Arguments secondary_bank_ {D} _.

Section Ops.
Context {D : Type} `{Double D}.

(** The configured energy bounds; the settings are not in src. *)
Variables E_min E_max : D.

Definition set_alive (b : bool) (this : t D) : t D :=
  mk (id_ this) (type_ this) (n_coord_ this) (cell_instance_ this)
     (coord_ this) (last_n_coord_ this) (last_cell_ this) (E_ this)
     (last_E_ this) (g_ this) (last_g_ this) (wgt_ this) (mu_ this) b
     (last_xyz_current_ this) (last_xyz_ this) (last_uvw_ this)
     (last_wgt_ this) (absorb_wgt_ this) (fission_ this) (event_ this)
     (event_nuclide_ this) (event_mt_ this) (delayed_group_ this)
     (n_bank_ this) (wgt_bank_ this) (n_delayed_bank_ this) (surface_ this)
     (cell_born_ this) (material_ this) (last_material_ this)
     (sqrtkT_ this) (last_sqrtkT_ this) (n_collision_ this)
     (write_track_ this) (n_secondary_ this) (secondary_bank_ this).

Definition set_secondary (n : Z) (bank : list (Bank D)) (this : t D) : t D :=
  mk (id_ this) (type_ this) (n_coord_ this) (cell_instance_ this)
     (coord_ this) (last_n_coord_ this) (last_cell_ this) (E_ this)
     (last_E_ this) (g_ this) (last_g_ this) (wgt_ this) (mu_ this)
     (alive_ this)
     (last_xyz_current_ this) (last_xyz_ this) (last_uvw_ this)
     (last_wgt_ this) (absorb_wgt_ this) (fission_ this) (event_ this)
     (event_nuclide_ this) (event_mt_ this) (delayed_group_ this)
     (n_bank_ this) (wgt_bank_ this) (n_delayed_bank_ this) (surface_ this)
     (cell_born_ this) (material_ this) (last_material_ this)
     (sqrtkT_ this) (last_sqrtkT_ this) (n_collision_ this)
     (write_track_ this) n bank.

Definition origin : Position.t D := Position.mk d_zero d_zero d_zero.

(** [coord_[0]]; the array is never empty in the program. *)
Definition coord0 (this : t D) : LocalCoord D :=
  nth 0 (coord_ this)
      (mkLocalCoord (-1) (-1) (-1) (-1) (-1) (-1) origin origin false).

(** [secondary_bank_[n]]. *)
Definition secondary_site (this : t D) (n : nat) : Bank D :=
  nth n (secondary_bank_ this) (mkBank origin origin d_zero d_zero 0 0).

(** Modelled from the spec: the body of [create_secondary] is not in src.
    It "appends a new Source Record -- current position, the given
    direction/energy/kind, current weight -- to the Secondary Bank and
    increments its count"; at capacity it is "a fatal configuration error
    ..., never a silent drop or overwrite".  The delayed-group tag of the
    slot, of which the spec says nothing, is left as it was.  The result is
    the outcome of the call together with the particle as the call leaves
    it. *)
Definition create_secondary (uvw : Position.t D) (E : D) (type : Z)
    (run_CE : bool) (this : t D) : result unit * t D :=
  if (MAX_SECONDARY <=? n_secondary_ this)%Z
  then (fatal_error "Too many secondary particles created.", this)
  else
    let n := Z.to_nat (n_secondary_ this) in
    let site := mkBank (xyz (coord0 this)) uvw E (wgt_ this) type
                       (Bank_delayed_group (secondary_site this n)) in
    (Ok tt,
     set_secondary (n_secondary_ this + 1)
                   (<[n := site]> (secondary_bank_ this)) this).

(** Modelled from the spec: "record fields are within physically valid
    ranges (weight > 0, energy within configured bounds)". *)
Definition valid_source (src : Bank D) : bool :=
  d_ltb d_zero (Bank_wgt src)
  && d_leb E_min (Bank_E src) && d_leb (Bank_E src) E_max.

(** Modelled from the spec: the body of [from_source] is not in src.  It
    "loads a Source Record's position/direction/energy/weight/kind/
    delayed-group into level 0 of the Coordinate Stack and the scalar
    fields; clears the Coordinate Stack above level 0, resets the Secondary
    Bank, sets alive = true, resets per-history counters"; a record outside
    the valid ranges is "a configuration/data error surfaced to the caller,
    not silently clamped".  Fields the spec does not name keep their
    value. *)
Definition from_source (src : Bank D) (this : t D) : result unit * t D :=
  if negb (valid_source src)
  then (fatal_error "Source site outside the valid ranges.", this)
  else
    (Ok tt,
     mk (id_ this) (Bank_particle src) 1 (cell_instance_ this)
        (match coord_ this with
         | [] => []
         | c0 :: above =>
             mkLocalCoord (cell c0) (universe c0) (lattice c0) (lattice_x c0)
                          (lattice_y c0) (lattice_z c0)
                          (Bank_xyz src) (Bank_uvw src) (rotated c0)
             :: map LocalCoord_reset above
         end)
        (last_n_coord_ this) (last_cell_ this) (Bank_E src)
        (last_E_ this) (g_ this) (last_g_ this) (Bank_wgt src) (mu_ this)
        true
        (last_xyz_current_ this) (last_xyz_ this) (last_uvw_ this)
        (last_wgt_ this) (absorb_wgt_ this) (fission_ this) (event_ this)
        (event_nuclide_ this) (event_mt_ this) (Bank_delayed_group src)
        0 d_zero (map (fun _ => 0%Z) (n_delayed_bank_ this)) (surface_ this)
        (cell_born_ this) (material_ this) (last_material_ this)
        (sqrtkT_ this) (last_sqrtkT_ this) 0
        (write_track_ this) 0 (secondary_bank_ this)).

(** The Source Record a particle stands for: what [write_restart] has to
    persist "to exactly reconstruct the particle via an equivalent of
    from_source". *)
Definition to_source (this : t D) : Bank D :=
  mkBank (xyz (coord0 this)) (uvw (coord0 this)) (E_ this) (wgt_ this)
         (type_ this) (delayed_group_ this).

(** Modelled from the spec: the body of [write_restart] is not in src.  It
    "serializes the full current phase-space state"; the file written is
    the particle as it is at the call. *)
Definition write_restart (this : t D) (w : World (t D)) : World (t D) :=
  mkWorld (warnings w) (restart_files w ++ [this]) (n_lost_particles w).

(** Modelled from the spec: the body of [mark_as_lost] is not in src.  It
    "sets alive = false, records the message, and triggers
    write_restart()", and the global lost-particle counter is "incremented
    when mark_as_lost fires": each call adds one to it, whatever the
    particle was before. *)
Definition mark_as_lost (message : string) (this : t D) (w : World (t D))
  : t D * World (t D) :=
  let this' := set_alive false this in
  let w1 := mkWorld (warnings w ++ [message]) (restart_files w)
                    (n_lost_particles w) in
  let w2 := write_restart this' w1 in
  (this', mkWorld (warnings w2) (restart_files w2)
                  (n_lost_particles w2 + 1)).

End Ops.
End Particle.


(** ** Vocabulary of the statements *)

Section BoxPoint.
Context {D S : Type} `{Double D} `{Rng D S}.

(** The point the box sampler returns when the three numbers it draws are
    the [k]-th, [k+1]-th and [k+2]-th of the stream from [s]. *)
Definition box_point (b : SpatialBox.t D) (k : nat) (s : S) : Position.t D :=
  Position.add (SpatialBox.lower_left_ b)
    (Position.mul
       (Position.mk (stream_nth k s) (stream_nth (k + 1) s)
                    (stream_nth (k + 2) s))
       (Position.sub (SpatialBox.upper_right_ b) (SpatialBox.lower_left_ b))).

End BoxPoint.

Definition box_message : string :=
  "Box/fission spatial source must have six parameters specified.".
Definition point_message : string :=
  "Point spatial source must have three parameters specified.".

Definition six_numbers : xml_tree float :=
  XmlTree [("parameters", [1; 2; 3; 4; 5; 6]%float)] [].

Section Bounds.
Context {D : Type} `{Double D}.

(** [0 <= v < 1]. *)
Definition unit_interval (v : D) : bool :=
  d_leb d_zero v && d_ltb v d_one.

(** [lo <= v <= hi]. *)
Definition within (lo v hi : D) : bool :=
  d_leb lo v && d_leb v hi.

(** Each lower component is at most the upper one. *)
Definition valid_bounds (b : SpatialBox.t D) : bool :=
  d_leb (Position.x (SpatialBox.lower_left_ b))
        (Position.x (SpatialBox.upper_right_ b))
  && d_leb (Position.y (SpatialBox.lower_left_ b))
           (Position.y (SpatialBox.upper_right_ b))
  && d_leb (Position.z (SpatialBox.lower_left_ b))
           (Position.z (SpatialBox.upper_right_ b)).

(** Some lower component is strictly above the upper one. *)
Definition degenerate_bounds (b : SpatialBox.t D) : bool :=
  d_ltb (Position.x (SpatialBox.upper_right_ b))
        (Position.x (SpatialBox.lower_left_ b))
  || d_ltb (Position.y (SpatialBox.upper_right_ b))
           (Position.y (SpatialBox.lower_left_ b))
  || d_ltb (Position.z (SpatialBox.upper_right_ b))
           (Position.z (SpatialBox.lower_left_ b)).

(** [p] lies between the corners of [b], on each axis. *)
Definition in_box (b : SpatialBox.t D) (p : Position.t D) : bool :=
  within (Position.x (SpatialBox.lower_left_ b)) (Position.x p)
         (Position.x (SpatialBox.upper_right_ b))
  && within (Position.y (SpatialBox.lower_left_ b)) (Position.y p)
            (Position.y (SpatialBox.upper_right_ b))
  && within (Position.z (SpatialBox.lower_left_ b)) (Position.z p)
            (Position.z (SpatialBox.upper_right_ b)).

End Bounds.

(** Every number of the stream is in [0, 1). *)
Definition unit_stream (D S : Type) `{Double D} `{Rng D S} : Prop :=
  forall s : S, unit_interval (fst (prn s)) = true.

(** A box in binary64 whose corners, -2^1023 and 2^1023 on each axis, are
    finite and ordered, and whose width 2^1024 is not a binary64 number. *)
Definition huge_box : SpatialBox.t float :=
  SpatialBox.mk false
    (Position.mk (-0x1p+1023) (-0x1p+1023) (-0x1p+1023))%float
    (Position.mk 0x1p+1023 0x1p+1023 0x1p+1023)%float.

(** [upper - lower], as the sampler computes it, is a finite number on
    each axis. *)
Definition finite_width (b : SpatialBox.t float) : bool :=
  is_finite (Position.x (SpatialBox.upper_right_ b)
             - Position.x (SpatialBox.lower_left_ b))%float
  && is_finite (Position.y (SpatialBox.upper_right_ b)
                - Position.y (SpatialBox.lower_left_ b))%float
  && is_finite (Position.z (SpatialBox.upper_right_ b)
                - Position.z (SpatialBox.lower_left_ b))%float.

(** A box of ordinary size, flat on z. *)
Definition ordinary_box : SpatialBox.t float :=
  SpatialBox.mk true (Position.mk (-1) 0 2.5)%float
                     (Position.mk 1 10 2.5)%float.

(** A configuration without children and without attributes. *)
Definition empty_node : xml_tree float := XmlTree [] [].

(** A box configuration whose lower x is above its upper x. *)
Definition reversed_numbers : xml_tree float :=
  XmlTree [("parameters", [1; 0; 0; 0; 1; 1]%float)] [].

(** The three draws of a sampler made of three children, in call order. *)
Definition three_draws {D S : Type} (a b c : Distribution D S) (s : S)
  : (D * D * D) * S :=
  let ra := Distribution_sample a s in
  let rb := Distribution_sample b (snd ra) in
  let rc := Distribution_sample c (snd rb) in
  ((fst ra, fst rb, fst rc), snd rc).

(** A particle with arrays of the declared sizes ([MAX_COORD] levels),
    every handle unset and every number zero. *)
Definition blank_particle {D : Type} `{Double D} (MAX_COORD : nat)
  : Particle.t D :=
  let o := Position.mk d_zero d_zero d_zero in
  Particle.mk 0 0 0 0
    (replicate MAX_COORD (mkLocalCoord (-1) (-1) (-1) (-1) (-1) (-1) o o false))
    0 (replicate MAX_COORD (-1)%Z) d_zero d_zero 0 0 d_zero d_zero false
    o o o d_zero d_zero false 0 0 0 0 0 d_zero
    (replicate (Z.to_nat MAX_DELAYED_GROUPS) 0%Z) 0 0 0 0 d_zero d_zero 0
    false 0
    (replicate (Z.to_nat MAX_SECONDARY) (mkBank o o d_zero d_zero 0 0)).

(** A level is in the unset state: every handle invalid, not rotated. *)
Definition unset {D : Type} (c : LocalCoord D) : Prop :=
  cell c = (-1)%Z /\ universe c = (-1)%Z /\ lattice c = (-1)%Z /\
  lattice_x c = (-1)%Z /\ lattice_y c = (-1)%Z /\ lattice_z c = (-1)%Z /\
  rotated c = false.

(** The source site of the end-to-end example of the spec: position
    (1,2,3), direction (0,0,1), energy 1e6, weight 1, a neutron, not
    delayed. *)
Definition example_site : Bank float :=
  mkBank (Position.mk 1 2 3)%float (Position.mk 0 0 1)%float
         1000000%float 1%float (ParticleType_to_int neutron) 0.

(** A blank particle whose bank holds [n] sites. *)
Definition particle_with {D : Type} `{Double D} (n : Z) : Particle.t D :=
  Particle.set_secondary n (Particle.secondary_bank_ (blank_particle 10))
                         (blank_particle 10).

(** The sentence of the spec on the box sampler, for a number type and a
    stream: with ordered corners and a stream in [0, 1), every one of
    [N >= 1] points drawn lies between the corners. *)
Definition box_claim (D S : Type) `{Double D} `{Rng D S} : Prop :=
  forall (b : SpatialBox.t D) (N : nat) (s : S),
    valid_bounds b = true -> unit_stream D S -> (1 <= N)%nat ->
    Forall (fun p => in_box b p = true)
           (fst (draws N (SpatialBox.sample b) s)).

(** The sentence of the spec on degenerate bounds, for a number type and a
    configuration format: no box that the constructor builds has a lower
    component above the upper one. *)
Definition degenerate_rejected (D S node : Type) `{Double D} `{Xml D S node}
  : Prop :=
  forall (nd : node) (fission : bool) (b : SpatialBox.t D),
    SpatialBox.SpatialBox nd fission = Ok b -> degenerate_bounds b = false.

(** ** Vocabulary of the further properties *)

(** The block that the constructors of CartesianIndependent and
    CylindricalIndependent repeat for each of their axes: the child named
    [name] is read when the configuration has it, and the one-point
    sampler at 0 stands for it otherwise. *)
Definition axis_distribution {D S node : Type} `{Double D} `{Xml D S node}
    (nd : node) (name : string) : result (Distribution D S) :=
  if check_for_node nd name
  then distribution_from_xml (child nd name)
  else Ok (Discrete [d_zero] [d_one] 1).

(** A configuration whose only child, [x], holds no distribution. *)
Definition bad_x_node : xml_tree float :=
  XmlTree [] [("x", XmlTree [] [])].

(** A configuration whose only child, [r], holds no distribution. *)
Definition bad_r_node : xml_tree float :=
  XmlTree [] [("r", XmlTree [] [])].

(** A configuration that names the z axis alone, as the point 5. *)
Definition z_only_node : xml_tree float :=
  XmlTree [] [("z", XmlTree [("parameters", [5]%float)] [])].

(** A configuration that names the radius alone, as the point 2. *)
Definition r_only_node : xml_tree float :=
  XmlTree [] [("r", XmlTree [("parameters", [2]%float)] [])].

(** A point configuration. *)
Definition three_numbers : xml_tree float :=
  XmlTree [("parameters", [1; 2; 3]%float)] [].

(** What the constructor builds from [z_only_node]. *)
Definition z_line : CartesianIndependent.t float nat :=
  CartesianIndependent.mk (Discrete [0%float] [1%float] 1)
                          (Discrete [0%float] [1%float] 1)
                          (Discrete [5%float] [1%float] 1).

(** ** Vocabulary of the statements on boxes in binary64 *)

(** [v] lies between [a] and [b], whichever of them is the larger. *)
Definition between (a v b : float) : bool :=
  within a v b || within b v a.

(** [p] lies, on each axis, between the two corner values of [b],
    whichever of them is the larger. *)
Definition in_hull (b : SpatialBox.t float) (p : Position.t float) : bool :=
  between (Position.x (SpatialBox.lower_left_ b)) (Position.x p)
          (Position.x (SpatialBox.upper_right_ b))
  && between (Position.y (SpatialBox.lower_left_ b)) (Position.y p)
             (Position.y (SpatialBox.upper_right_ b))
  && between (Position.z (SpatialBox.lower_left_ b)) (Position.z p)
             (Position.z (SpatialBox.upper_right_ b)).

(** The three components are finite numbers. *)
Definition finite_position (p : Position.t float) : bool :=
  is_finite (Position.x p) && is_finite (Position.y p)
  && is_finite (Position.z p).

(** No component is a zero. *)
Definition nonzero_position (p : Position.t float) : bool :=
  negb (is_zero (Position.x p)) && negb (is_zero (Position.y p))
  && negb (is_zero (Position.z p)).

(** The components compare equal, as [==] on [double] has it: a zero
    equals the zero of the other sign. *)
Definition same_position (p q : Position.t float) : bool :=
  (Position.x p =? Position.x q)%float
  && (Position.y p =? Position.y q)%float
  && (Position.z p =? Position.z q)%float.

(** Every number of the stream is finite. *)
Definition finite_stream (S : Type) `{Rng float S} : Prop :=
  forall s : S, is_finite (fst (prn s)) = true.

(** The box that the constructor builds from [reversed_numbers]. *)
Definition reversed_box : SpatialBox.t float :=
  SpatialBox.mk false (Position.mk 1 0 0)%float (Position.mk 0 1 1)%float.

(** A box without volume. *)
Definition flat_box : SpatialBox.t float :=
  SpatialBox.mk true (Position.mk 1 2 3)%float (Position.mk 1 2 3)%float.

(** ** Vocabulary of the statements on the cylindrical sampler *)

(** [cos] and [sin] of <cmath> are not in src.  Annex F of the C standard
    fixes their values at a zero argument: [cos(0) = 1] and [sin(0) = 0]. *)
Definition exact_at_zero (T : Trig float) : Prop :=
  @d_cos float T 0%float = 1%float /\ @d_sin float T 0%float = 0%float.

(** A pair of functions with these values at zero, and NaN at every other
    argument.  It stands for <cmath> where the values at zero are all that
    matters. *)
Definition zero_angle_Trig : Trig float := {|
  d_cos := fun t => if is_zero t then 1%float else nan;
  d_sin := fun t => if is_zero t then t else nan
|}.

(** A cylindrical distribution whose radius is +infinity, a value of
    [double], and whose angle and z are 0. *)
Definition infinite_ring : CylindricalIndependent.t float nat :=
  CylindricalIndependent.mk (Discrete [infinity] [1%float] 1)
                            (Discrete [0%float] [1%float] 1)
                            (Discrete [0%float] [1%float] 1).

(** The sentence of the spec on the radius, for a pair [cos], [sin] and a
    tolerance: [|x^2 + y^2 - r^2| <= tol] at every draw of every
    distribution. *)
Definition radius_claim (T : Trig float) (tol : float) : Prop :=
  forall (c : CylindricalIndependent.t float nat) (s : nat),
    let r := fst (Distribution_sample (CylindricalIndependent.r_ c) s) in
    let p := fst (@CylindricalIndependent.sample float nat _ T c s) in
    (abs (Position.x p * Position.x p + Position.y p * Position.y p
          - r * r) <=? tol)%float = true.

(** What the constructor builds from [r_only_node]. *)
Definition ring_two : CylindricalIndependent.t float nat :=
  CylindricalIndependent.mk (Discrete [2%float] [1%float] 1)
                            (Discrete [0%float] [1%float] 1)
                            (Discrete [0%float] [1%float] 1).

(** ** Vocabulary of the statements on lost particles *)

(** The sentence of the spec on the tally: a second call of [mark_as_lost]
    on the same particle leaves the lost-particle counter where the first
    call left it. *)
Definition counted_once (D : Type) : Prop :=
  forall (message again : string) (this : Particle.t D)
         (w : World (Particle.t D)),
    let r1 := Particle.mark_as_lost message this w in
    n_lost_particles (snd (Particle.mark_as_lost again (fst r1) (snd r1)))
    = n_lost_particles (snd r1).

(** A run in which nothing has been reported yet, a particle that is
    marked as lost in it, and the same particle marked a second time. *)
Definition quiet_world : World (Particle.t float) := mkWorld [] [] 0.

Definition lost_once : Particle.t float * World (Particle.t float) :=
  Particle.mark_as_lost "Particle lost." (blank_particle 10) quiet_world.

Definition lost_twice : Particle.t float * World (Particle.t float) :=
  Particle.mark_as_lost "Particle lost again." (fst lost_once)
                        (snd lost_once).

(** ** Binary64 numbers as scaled integers

    The arithmetic of [float] is that of [SpecFloat]: [Prim2SF] maps a
    primitive number to its sign, mantissa and exponent, and each
    operation rounds the exact result to the nearest representable number,
    ties to even.  To reason on it without fractions, the value of a
    number is counted in units of [2^-2200], below the smallest power of
    two that an exact sum or product of two binary64 numbers involves. *)

Section Binary64Values.
Local Open Scope Z_scope.

(** [2^k]; kept opaque in the proofs. *)
Definition pow2 (k : Z) : Z := 2 ^ k.

(** [k] one-bit right shifts of the mantissa [m0], as [shr] does them. *)
Definition shr_n (m0 : Z) (k : nat) : shr_record :=
  Nat.iter k shr_1 (Build_shr_record m0 false false).

(** The value of a number in units of [2^-2200]; 0 for infinities and
    NaN. *)
Definition Vz (f : spec_float) : Z :=
  match f with
  | S754_finite s m e => cond_Zopp s (Zpos m * pow2 (e + 2200))
  | _ => 0
  end.

(** Zero or finite: neither an infinity nor NaN. *)
Definition SFfin (f : spec_float) : bool :=
  match f with
  | S754_zero _ | S754_finite _ _ _ => true
  | _ => false
  end.

(** The number that rounding returns from a rounded mantissa and its
    exponent: an infinity beyond the largest exponent. *)
Definition mk_float (s : bool) (m e : Z) : spec_float :=
  match m with
  | Z0 => S754_zero s
  | Zpos p => if e <=? 971 then S754_finite s p e else S754_infinity s
  | Zneg _ => S754_nan
  end.

(** [m * 2^e] is a correct rounding of the exact value [x >= 0]: the pair
    is canonical, within half a unit in the last place of [x], within a
    relative [2^-53] when it is above [x] and not subnormal, and at least
    as near to [x] as any binary64 number. *)
Definition rounded_ok (x m e : Z) : Prop :=
  0 <= m /\ -1074 <= e /\
  m < pow2 53 /\ (e = -1074 \/ pow2 52 <= m) /\
  2 * Z.abs (m * pow2 (e + 2200) - x) <= pow2 (e + 2200) /\
  (-1074 < e -> x < m * pow2 (e + 2200) ->
   pow2 53 * (m * pow2 (e + 2200) - x) < m * pow2 (e + 2200)) /\
  (forall h, valid_binary h = true ->
             Z.abs (m * pow2 (e + 2200) - x) <= Z.abs (Vz h - x)).

(** The number [r] is what an operation of exact result [x] returns: it
    is not finite only when [x] is beyond every binary64 number; when it
    is finite it is as near to [x] as any binary64 number, it is [x] itself
    when [x] is a multiple of [2^-1074] and [r] is below [2^-1021], and it
    exceeds [x] in magnitude by less than a relative [2^-53] when it is at
    least [2^-1021]. *)
Definition rounds (x : Z) (r : spec_float) : Prop :=
  valid_binary r = true /\
  (SFfin r = false ->
   forall h, valid_binary h = true -> Z.abs (Vz h) < Z.abs x) /\
  (SFfin r = true ->
   (forall h, valid_binary h = true ->
              Z.abs (Vz r - x) <= Z.abs (Vz h - x)) /\
   (Z.divide (pow2 (2200 - 1074)) x ->
    Z.abs (Vz r) < pow2 (2200 - 1021) -> Vz r = x) /\
   (pow2 (2200 - 1021) <= Z.abs (Vz r) -> Z.abs x < Z.abs (Vz r) ->
    pow2 53 * (Z.abs (Vz r) - Z.abs x) < Z.abs (Vz r))).

(** The number 1.0. *)
Definition SFone64 : spec_float := S754_finite false 4503599627370496 (-52).

End Binary64Values.
(** * Properties *)

(** ** The seed monad and the stream *)

Lemma advance_add {D S : Type} `{Rng D S} (a b : nat) (s : S) :
  advance (a + b) s = advance b (advance a s).
Proof.
  revert s. induction a as [|a IH]; intros s; simpl; [reflexivity|].
  apply IH.
Qed.

Lemma stream_nth_advance {D S : Type} `{Rng D S} (a k : nat) (s : S) :
  stream_nth k (advance a s) = stream_nth (a + k) s.
Proof. unfold stream_nth. now rewrite advance_add. Qed.

Lemma draws_length {S A : Type} (m : Rand S A) (n : nat) (s : S) :
  length (fst (draws n m s)) = n.
Proof.
  revert s. induction n as [|n IH]; intros s; simpl; [reflexivity|].
  unfold bind. destruct (m s) as [a s1]. specialize (IH s1).
  destruct (draws n m s1) as [l s2]. simpl in *. now rewrite IH.
Qed.

(** ** SpatialBox: one call, and N calls, in closed form *)

Section BoxFacts.
Context {D S : Type} `{Double D} `{Rng D S}.


Lemma SpatialBox_sample_eq (b : SpatialBox.t D) (s : S) :
  SpatialBox.sample b s = (box_point b 0 s, advance 3 s).
Proof.
  unfold SpatialBox.sample, box_point, stream_nth, bind, ret. simpl.
  destruct (prn s) as [xi1 s1]. simpl.
  destruct (prn s1) as [xi2 s2]. simpl.
  destruct (prn s2) as [xi3 s3]. reflexivity.
Qed.

Lemma box_point_advance (b : SpatialBox.t D) (a k : nat) (s : S) :
  box_point b k (advance a s) = box_point b (a + k) s.
Proof.
  unfold box_point. rewrite !stream_nth_advance.
  now rewrite !Nat.add_assoc.
Qed.

Lemma SpatialBox_draws_eq (b : SpatialBox.t D) (n : nat) (s : S) :
  draws n (SpatialBox.sample b) s =
  (map (fun i => box_point b (3 * i) s) (seq 0 n), advance (3 * n) s).
Proof.
  revert s. induction n as [|n IH]; intros s; [reflexivity|].
  cbn [draws]. unfold bind at 1. rewrite SpatialBox_sample_eq.
  unfold bind at 1. rewrite IH. unfold ret.
  replace (3 * Datatypes.S n)%nat with (3 + 3 * n)%nat by lia.
  rewrite advance_add. f_equal.
  cbn [seq map]. f_equal.
  rewrite <- seq_shift, map_map.
  apply map_ext. intros i. rewrite box_point_advance.
  f_equal. lia.
Qed.

End BoxFacts.

(** ** Construction of Box and Point *)


(** C1.  Whatever the configuration, when its [parameters] array has a
    length other than 6 the constructor of SpatialBox ends in the fatal
    error, and so does the constructor of SpatialPoint for a length other
    than 3: no object exists on which [sample] could be called.  With six
    values the box holds the first three as its lower and the last three
    as its upper corner, in the order x, y, z; with three values the point
    holds them.  A fatal error of [get_node_array] itself is passed on. *)
Theorem C1_parameter_count {D S node : Type} `{Double D} `{Xml D S node}
    (nd : node) (fission : bool) :
  (forall params,
      get_node_array nd "parameters" = Ok params ->
      (length params <> 6%nat ->
       SpatialBox.SpatialBox nd fission = Fatal box_message) /\
      (length params <> 3%nat ->
       SpatialPoint.SpatialPoint nd = Fatal point_message) /\
      (forall a b c d e f,
          params = [a; b; c; d; e; f] ->
          SpatialBox.SpatialBox nd fission =
          Ok (SpatialBox.mk fission (Position.mk a b c) (Position.mk d e f))) /\
      (forall a b c,
          params = [a; b; c] ->
          SpatialPoint.SpatialPoint nd =
          Ok (SpatialPoint.mk (Position.mk a b c)))) /\
  (forall msg,
      get_node_array nd "parameters" = Fatal msg ->
      SpatialBox.SpatialBox nd fission = Fatal msg /\
      SpatialPoint.SpatialPoint nd = Fatal msg).
Proof.
  split.
  - intros params Hp.
    unfold SpatialBox.SpatialBox, SpatialPoint.SpatialPoint.
    rewrite Hp. cbn [rbind].
    repeat split.
    + intros Hlen. apply Nat.eqb_neq in Hlen. now rewrite Hlen.
    + intros Hlen. apply Nat.eqb_neq in Hlen. now rewrite Hlen.
    + intros a b c d e f ->. reflexivity.
    + intros a b c ->. reflexivity.
  - intros msg Hp.
    unfold SpatialBox.SpatialBox, SpatialPoint.SpatialPoint.
    rewrite Hp. split; reflexivity.
Qed.


Lemma C1_parameter_count_witness :
  SpatialBox.SpatialBox (S := nat) six_numbers true =
    Ok (SpatialBox.mk true (Position.mk 1 2 3) (Position.mk 4 5 6))%float /\
  SpatialPoint.SpatialPoint (S := nat) six_numbers = Fatal point_message.
Proof.
  destruct (C1_parameter_count (S := nat) six_numbers true) as [Hok _].
  destruct (Hok [1; 2; 3; 4; 5; 6]%float eq_refl) as (_ & Hpoint & Hbox & _).
  split.
  - apply (Hbox 1 2 3 4 5 6 eq_refl)%float.
  - apply Hpoint. simpl. lia.
Defined.

(** ** Rounding in binary64

    The operations of [SpecFloat], which those of [float] are specified
    by, return a correctly rounded result: [rounds] holds of the exact
    sum, difference and product.  From this, the interpolation
    [lo + xi * (hi - lo)] with [0 <= xi < 1] stays between [lo] and
    [hi]. *)

Section Binary64.
Local Open Scope Z_scope.

(** *** Powers of two and bit lengths *)

Lemma pow2_0 : pow2 0 = 1.
Proof. reflexivity. Qed.

Lemma pow2_pos k : 0 <= k -> 0 < pow2 k.
Proof. intros. unfold pow2. apply Z.pow_pos_nonneg; lia. Qed.

Lemma pow2_add a b : 0 <= a -> 0 <= b -> pow2 (a + b) = pow2 a * pow2 b.
Proof. intros. unfold pow2. apply Z.pow_add_r; lia. Qed.

Lemma pow2_succ k : 0 <= k -> pow2 (k + 1) = 2 * pow2 k.
Proof. intros. rewrite pow2_add by lia. change (pow2 1) with 2. lia. Qed.

Lemma pow2_le a b : 0 <= a <= b -> pow2 a <= pow2 b.
Proof. intros. unfold pow2. apply Z.pow_le_mono_r; lia. Qed.

Lemma pow2_lt a b : 0 <= a < b -> pow2 a < pow2 b.
Proof. intros. unfold pow2. apply Z.pow_lt_mono_r; lia. Qed.

Lemma pow2_split a b : 0 <= b <= a -> pow2 a = pow2 b * pow2 (a - b).
Proof. intros. rewrite <- pow2_add by lia. f_equal. lia. Qed.

Opaque pow2.

(** [digits2_pos p] is the bit length of [p]. *)
Lemma digits2_pos_bounds p :
  pow2 (Zpos (digits2_pos p) - 1) <= Zpos p < pow2 (Zpos (digits2_pos p)).
Proof.
  induction p as [p IH|p IH|]; cbn [digits2_pos].
  - rewrite Pos2Z.inj_succ. replace (Z.succ (Zpos (digits2_pos p)) - 1)
      with ((Zpos (digits2_pos p) - 1) + 1) by lia.
    replace (Z.succ (Zpos (digits2_pos p))) with (Zpos (digits2_pos p) + 1) by lia.
    rewrite !pow2_succ by lia. lia.
  - rewrite Pos2Z.inj_succ. replace (Z.succ (Zpos (digits2_pos p)) - 1)
      with ((Zpos (digits2_pos p) - 1) + 1) by lia.
    replace (Z.succ (Zpos (digits2_pos p))) with (Zpos (digits2_pos p) + 1) by lia.
    rewrite !pow2_succ by lia. lia.
  - change (pow2 0 <= 1 < pow2 (0 + 1)). rewrite pow2_succ, pow2_0; lia.
Qed.

Lemma digits_unique (m d : Z) p :
  m = Zpos p -> 0 < d -> pow2 (d - 1) <= m < pow2 d -> Zpos (digits2_pos p) = d.
Proof.
  intros -> Hd Hm. pose proof (digits2_pos_bounds p) as Hp.
  set (d' := Zpos (digits2_pos p)) in *. assert (0 < d') by (unfold d'; lia).
  destruct (Z.lt_trichotomy d' d) as [Hlt|[Heq|Hgt]]; [|exact Heq|].
  - assert (pow2 d' <= pow2 (d - 1)) by (apply pow2_le; lia). lia.
  - assert (pow2 d <= pow2 (d' - 1)) by (apply pow2_le; lia). lia.
Qed.

(** *** Right shifts *)

Lemma iter_pos_nat {T : Type} (f : T -> T) (p : positive) (x : T) :
  SpecFloat.iter_pos f p x = Nat.iter (Pos.to_nat p) f x.
Proof.
  revert x. induction p as [p IH|p IH|]; intros x; cbn [SpecFloat.iter_pos].
  - rewrite !IH. rewrite Pos2Nat.inj_xI.
    replace (S (2 * Pos.to_nat p))%nat with (Pos.to_nat p + (Pos.to_nat p + 1))%nat by lia.
    rewrite !Nat.iter_add. reflexivity.
  - rewrite !IH. rewrite Pos2Nat.inj_xO.
    replace (2 * Pos.to_nat p)%nat with (Pos.to_nat p + Pos.to_nat p)%nat by lia.
    rewrite Nat.iter_add. reflexivity.
  - reflexivity.
Qed.

Lemma shr_1_nonneg (m : Z) (r s : bool) :
  0 <= m ->
  shr_1 (Build_shr_record m r s) = Build_shr_record (m / 2) (Z.odd m) (r || s).
Proof.
  intros Hm. destruct m as [|[p|p|]|p]; try lia; cbn [shr_1];
    try reflexivity.
  - f_equal. rewrite Pos2Z.inj_xI. symmetry.
    rewrite Z.add_comm, Z.mul_comm, Z.div_add by lia. reflexivity.
  - f_equal. rewrite Pos2Z.inj_xO. symmetry.
    rewrite Z.mul_comm, Z.div_mul by lia. reflexivity.
Qed.

Lemma mod_pow2_split (m0 k : Z) :
  0 <= k ->
  m0 mod pow2 (k + 1) = m0 mod pow2 k + pow2 k * ((m0 / pow2 k) mod 2).
Proof.
  intros Hk. rewrite pow2_succ by lia.
  pose proof (pow2_pos k Hk).
  rewrite (Z.mul_comm 2). apply Z.rem_mul_r; lia.
Qed.

Lemma shr_n_succ (m0 : Z) (k : nat) : shr_n m0 (S k) = shr_1 (shr_n m0 k).
Proof. reflexivity. Qed.

(** After [k] shifts the record holds the quotient by [2^k], the round
    bit and the sticky bit of the bits shifted out. *)
Lemma shr_n_spec (m0 : Z) (k : nat) :
  0 <= m0 ->
  shr_m (shr_n m0 k) = m0 / pow2 (Z.of_nat k) /\
  (shr_r (shr_n m0 k) = true <->
   (1 <= Z.of_nat k /\ pow2 (Z.of_nat k - 1) <= m0 mod pow2 (Z.of_nat k))) /\
  (shr_s (shr_n m0 k) = true <->
   (1 <= Z.of_nat k /\ m0 mod pow2 (Z.of_nat k - 1) <> 0)).
Proof.
  intros Hm. induction k as [|k IH].
  - cbn. change (Z.of_nat 0) with 0. rewrite pow2_0, Z.div_1_r. repeat split; try lia; intros; try discriminate; lia.
  - destruct IH as (IHm & IHr & IHs).
    rewrite shr_n_succ.
    destruct (shr_n m0 k) as [m r s] eqn:E. cbn [shr_m shr_r shr_s] in *.
    assert (Hk : 0 <= Z.of_nat k) by lia.
    pose proof (pow2_pos _ Hk) as Hp.
    assert (Hm0 : 0 <= m) by (rewrite IHm; apply Z.div_pos; lia).
    rewrite shr_1_nonneg by exact Hm0. cbn [shr_m shr_r shr_s].
    replace (Z.of_nat (S k)) with (Z.of_nat k + 1) by lia.
    replace (Z.of_nat k + 1 - 1) with (Z.of_nat k) by lia.
    pose proof (mod_pow2_split m0 (Z.of_nat k) Hk) as Hsplit.
    pose proof (Z.mod_pos_bound m0 (pow2 (Z.of_nat k)) Hp) as Hb.
    pose proof (Z.mod_pos_bound (m0 / pow2 (Z.of_nat k)) 2 ltac:(lia)) as Hb2.
    split; [|split].
    + rewrite IHm, pow2_succ by lia. rewrite Z.div_div by lia.
      f_equal. lia.
    + rewrite IHm. rewrite Zodd_mod.
      destruct (Z.eqb_spec ((m0 / pow2 (Z.of_nat k)) mod 2) 1) as [H1|H1].
      * split; [intros _; split; [lia|]|reflexivity]. rewrite Hsplit, H1. lia.
      * split; [discriminate|]. intros [_ Hge]. rewrite Hsplit in Hge.
        assert ((m0 / pow2 (Z.of_nat k)) mod 2 = 0) by lia. nia.
    + rewrite orb_true_iff, IHr, IHs.
      destruct (Z.eq_dec (Z.of_nat k) 0) as [Hz|Hz].
      * rewrite Hz in *. rewrite pow2_0 in *. rewrite Z.mod_1_r.
        split; [intros [[? _]|[? _]]; lia|intros [_ ?]; lia].
      * pose proof (mod_pow2_split m0 (Z.of_nat k - 1) ltac:(lia)) as Hs2.
        replace (Z.of_nat k - 1 + 1) with (Z.of_nat k) in Hs2 by lia.
        assert (0 < pow2 (Z.of_nat k - 1)) by (apply pow2_pos; lia).
        pose proof (Z.mod_pos_bound m0 (pow2 (Z.of_nat k - 1)) ltac:(lia)).
        pose proof (Z.mod_pos_bound (m0 / pow2 (Z.of_nat k - 1)) 2 ltac:(lia)).
        split.
        -- intros [[_ Hge]|[_ Hne]]; (split; [lia|]); nia.
        -- intros [_ Hne].
           destruct (Z.eq_dec (m0 mod pow2 (Z.of_nat k - 1)) 0) as [Hz0|Hz0].
           ++ left. split; [lia|].
              destruct (Z.eq_dec ((m0 / pow2 (Z.of_nat k - 1)) mod 2) 0) as [e|e].
              ** rewrite e in Hs2. lia.
              ** replace ((m0 / pow2 (Z.of_nat k - 1)) mod 2) with 1 in Hs2 by lia.
                 lia.
           ++ right. split; [lia|exact Hz0].
Qed.

(** Rounding to nearest even after a right shift by [n >= 1] bits. *)
Lemma rne_shift (m0 : Z) (p : positive) :
  0 <= m0 ->
  let rec := SpecFloat.iter_pos shr_1 p (Build_shr_record m0 false false) in
  let m' := round_nearest_even (shr_m rec) (loc_of_shr_record rec) in
  m0 / pow2 (Zpos p) <= m' <= m0 / pow2 (Zpos p) + 1 /\
  2 * Z.abs (m' * pow2 (Zpos p) - m0) <= pow2 (Zpos p).
Proof.
  intros Hm rec m'. subst m'.
  unfold rec. rewrite iter_pos_nat. fold (shr_n m0 (Pos.to_nat p)).
  destruct (shr_n_spec m0 (Pos.to_nat p) Hm) as (Hq & Hr & Hs).
  rewrite positive_nat_Z in *.
  set (n := Zpos p) in *. assert (Hn : 1 <= n) by (unfold n; lia).
  assert (Hp : 0 < pow2 n) by (apply pow2_pos; lia).
  assert (Hh : 0 < pow2 (n - 1)) by (apply pow2_pos; lia).
  assert (Hd : pow2 n = 2 * pow2 (n - 1)).
  { replace n with ((n - 1) + 1) at 1 by lia. apply pow2_succ. lia. }
  pose proof (Z.div_mod m0 (pow2 n) ltac:(lia)) as Hdm.
  pose proof (Z.mod_pos_bound m0 (pow2 n) Hp) as Hb.
  pose proof (mod_pow2_split m0 (n - 1) ltac:(lia)) as Hs2.
  replace (n - 1 + 1) with n in Hs2 by lia.
  pose proof (Z.mod_pos_bound m0 (pow2 (n - 1)) Hh) as Hb1.
  pose proof (Z.mod_pos_bound (m0 / pow2 (n - 1)) 2 ltac:(lia)) as Hb2.
  destruct (shr_n m0 (Pos.to_nat p)) as [m r s]. cbn [shr_m shr_r shr_s] in *.
  subst m. set (q := m0 / pow2 n) in *. set (rem := m0 mod pow2 n) in *.
  destruct r, s; cbn [loc_of_shr_record round_nearest_even].
  - (* above half *)
    assert (pow2 (n - 1) <= rem) by (apply Hr; reflexivity).
    split; [lia|]. nia.
  - (* tie *)
    assert (pow2 (n - 1) <= rem) by (apply Hr; reflexivity).
    assert (m0 mod pow2 (n - 1) = 0).
    { destruct (Z.eq_dec (m0 mod pow2 (n - 1)) 0) as [E|E]; [exact E|].
      assert (false = true) by (apply Hs; split; [lia|exact E]). discriminate. }
    assert (rem = pow2 (n - 1)) by nia.
    destruct (Z.even q); split; try lia; nia.
  - assert (~ pow2 (n - 1) <= rem).
    { intros Hge. assert (false = true) by (apply Hr; split; [lia|exact Hge]).
      discriminate. }
    split; [lia|]. nia.
  - assert (~ pow2 (n - 1) <= rem).
    { intros Hge. assert (false = true) by (apply Hr; split; [lia|exact Hge]).
      discriminate. }
    split; [lia|]. nia.
Qed.

(** *** Canonical numbers *)

Lemma fexp64 (e : Z) : fexp prec emax e = Z.max (e - 53) (-1074).
Proof. reflexivity. Qed.

Lemma pow2_53 : pow2 53 = 2 * pow2 52.
Proof. change 53 with (52 + 1). apply pow2_succ. lia. Qed.

Lemma pow2_54 : pow2 54 = 2 * pow2 53.
Proof. change 54 with (53 + 1). apply pow2_succ. lia. Qed.

Lemma canonical_facts (m : positive) (e : Z) :
  canonical_mantissa prec emax m e = true <->
  -1074 <= e /\ Zpos m < pow2 53 /\ (e = -1074 \/ pow2 52 <= Zpos m).
Proof.
  unfold canonical_mantissa. rewrite Z.eqb_eq, fexp64.
  pose proof (digits2_pos_bounds m) as Hd.
  set (d := Zpos (digits2_pos m)) in *. assert (0 < d) by (unfold d; lia).
  split.
  - intros Hc. split; [lia|]. split.
    + assert (pow2 d <= pow2 53) by (apply pow2_le; lia). lia.
    + destruct (Z.eq_dec e (-1074)); [now left|right].
      assert (d = 53) by lia. subst d. replace 52 with (Zpos (digits2_pos m) - 1) by lia.
      lia.
  - intros (He & Hm & Hn).
    assert (d <= 53).
    { destruct (Z.le_gt_cases d 53) as [|Hgt]; [assumption|].
      assert (pow2 53 <= pow2 (d - 1)) by (apply pow2_le; lia). lia. }
    destruct Hn as [->|Hn]; [lia|].
    assert (53 <= d).
    { destruct (Z.le_gt_cases 53 d) as [|Hlt]; [assumption|].
      assert (pow2 d <= pow2 52) by (apply pow2_le; lia). lia. }
    lia.
Qed.

(** A finite number is valid when its exponent is in range, its mantissa
    has at most 53 bits, and it is normalised unless the exponent is the
    least one. *)
Lemma valid_finite (s : bool) (m : positive) (e : Z) :
  valid_binary (S754_finite s m e) = true <->
  -1074 <= e <= 971 /\ Zpos m < pow2 53 /\ (e = -1074 \/ pow2 52 <= Zpos m).
Proof.
  cbn [SpecFloat.valid_binary]. unfold bounded. rewrite andb_true_iff, canonical_facts.
  change (emax - prec) with 971. rewrite Z.leb_le. intuition lia.
Qed.

(** Among the multiples of [G], one within [G/2] of [x] is nearest to [x]. *)
Lemma nearest_multiple (G a b x : Z) :
  0 < G -> 2 * Z.abs (a * G - x) <= G ->
  Z.abs (a * G - x) <= Z.abs (b * G - x).
Proof.
  intros HG Hh.
  destruct (Z.lt_trichotomy a b) as [Hlt|[->|Hgt]]; [|lia|].
  - assert (a * G + G <= b * G) by nia. lia.
  - assert (b * G + G <= a * G) by nia. lia.
Qed.

Lemma Vz_bound_pos (m : positive) (e : Z) :
  -1074 <= e -> Zpos m < pow2 53 ->
  Zpos m * pow2 (e + 2200) < pow2 (53 + e + 2200).
Proof.
  intros He Hm. replace (53 + e + 2200) with (53 + (e + 2200)) by lia.
  rewrite (pow2_add 53 (e + 2200)) by lia.
  assert (0 < pow2 (e + 2200)) by (apply pow2_pos; lia). nia.
Qed.

(** *** Rounding a positive mantissa *)

(** The mantissa after the first shift and rounding, before a carry into
    the next binade is taken care of. *)
Lemma pre_round (M : positive) (E n m' : Z) :
  - 2200 <= E -> 0 <= n ->
  E + n = fexp prec emax (Zpos (digits2_pos M) + E) ->
  Zpos M / pow2 n <= m' <= Zpos M / pow2 n + 1 ->
  2 * Z.abs (m' * pow2 n - Zpos M) <= pow2 n ->
  let x := Zpos M * pow2 (E + 2200) in
  let r0 := m' * pow2 (E + n + 2200) in
  -1074 <= E + n /\
  2 * Z.abs (r0 - x) <= pow2 (E + n + 2200) /\
  0 <= m' <= pow2 53 /\
  (-1074 < E + n -> pow2 52 <= m' /\ (m' = pow2 52 -> r0 <= x)) /\
  (forall h, valid_binary h = true -> Z.abs (r0 - x) <= Z.abs (Vz h - x)).
Proof.
  intros HE Hn He Hq Hr x r0.
  rewrite fexp64 in He.
  pose proof (digits2_pos_bounds M) as Hd.
  set (d := Zpos (digits2_pos M)) in *. assert (Hd0 : 0 < d) by (unfold d; lia).
  set (A := pow2 (E + 2200)) in *. assert (HA : 0 < A) by (apply pow2_pos; lia).
  set (N := pow2 n) in *. assert (HN : 0 < N) by (apply pow2_pos; lia).
  assert (HG : pow2 (E + n + 2200) = N * A).
  { replace (E + n + 2200) with (n + (E + 2200)) by lia. apply pow2_add; lia. }
  assert (Hr0 : r0 - x = (m' * N - Zpos M) * A) by (unfold r0, x; rewrite HG; ring).
  assert (Hhalf : 2 * Z.abs (r0 - x) <= pow2 (E + n + 2200)).
  { rewrite Hr0, HG, Z.abs_mul, (Z.abs_eq A) by lia. nia. }
  assert (Hq0 : 0 <= Zpos M / N) by (apply Z.div_pos; lia).
  assert (Hqlt : Zpos M / N < pow2 53).
  { apply Z.div_lt_upper_bound; [lia|].
    assert (pow2 d <= pow2 (n + 53)) by (apply pow2_le; lia).
    assert (pow2 (n + 53) = N * pow2 53) by (apply pow2_add; lia). lia. }
  assert (Hnorm : -1074 < E + n -> pow2 52 <= Zpos M / N).
  { intros Hlow. assert (Hnd : n + 52 = d - 1) by lia.
    apply Z.div_le_lower_bound; [lia|].
    assert (Hs52 : pow2 (n + 52) = N * pow2 52) by (apply pow2_add; lia).
    rewrite Hnd in Hs52. lia. }
  assert (HqN : N * (Zpos M / N) <= Zpos M) by (apply Z.mul_div_le; lia).
  assert (Hzero : Z.abs (r0 - x) <= Z.abs (0 - x)).
  { assert (HGp : 0 < pow2 (E + n + 2200)) by (rewrite HG; nia).
    pose proof (nearest_multiple _ m' 0 x HGp Hhalf) as Hz.
    rewrite Z.mul_0_l in Hz. exact Hz. }
  split; [lia|]. split; [exact Hhalf|]. split; [lia|]. split.
  - intros Hlow. specialize (Hnorm Hlow). split; [lia|].
    intros Hm. assert (m' = Zpos M / N) by lia.
    unfold r0, x. rewrite HG. subst m'. nia.
  - intros h Hv. destruct h as [sh|sh| |sh mh eh]; cbn [Vz]; try exact Hzero.
    apply valid_finite in Hv. destruct Hv as (Heh & Hmh & Hnh).
    assert (Hx0 : 0 < x) by (unfold x; nia).
    destruct sh; cbn [cond_Zopp].
    + assert (0 < Zpos mh * pow2 (eh + 2200)).
      { assert (0 < pow2 (eh + 2200)) by (apply pow2_pos; lia). nia. }
      lia.
    + destruct (Z.le_gt_cases (E + n) eh) as [Hge|Hlt].
      * assert (Hs : pow2 (eh + 2200) = pow2 (eh - (E + n)) * pow2 (E + n + 2200)).
        { rewrite <- pow2_add by lia. f_equal. lia. }
        rewrite Hs, Z.mul_assoc. unfold r0.
        apply nearest_multiple; [rewrite HG; nia|exact Hhalf].
      * assert (Hlow : -1074 < E + n) by lia.
        assert (Hnd : n + 52 = d - 1) by lia.
        assert (HB : pow2 52 * pow2 (E + n + 2200) <= x).
        { unfold x. rewrite HG.
          assert (Hs52 : pow2 (n + 52) = N * pow2 52) by (apply pow2_add; lia).
          rewrite Hnd in Hs52. nia. }
        assert (Hvh : Zpos mh * pow2 (eh + 2200) < pow2 52 * pow2 (E + n + 2200)).
        { pose proof (Vz_bound_pos mh eh ltac:(lia) Hmh) as Hb.
          assert (pow2 (53 + eh + 2200) <= pow2 (52 + (E + n + 2200)))
            by (apply pow2_le; lia).
          assert (pow2 (52 + (E + n + 2200)) = pow2 52 * pow2 (E + n + 2200))
            by (apply pow2_add; lia).
          lia. }
        assert (Hnb : Z.abs (r0 - x) <= Z.abs (pow2 52 * pow2 (E + n + 2200) - x)).
        { unfold r0. apply nearest_multiple; [rewrite HG; nia|exact Hhalf]. }
        lia.
Qed.

(** A carry to [2^53] is renormalised without loss. *)
Lemma carry_round (x m' e' : Z) :
  0 < x -> -1074 <= e' ->
  2 * Z.abs (m' * pow2 (e' + 2200) - x) <= pow2 (e' + 2200) ->
  0 <= m' <= pow2 53 ->
  (-1074 < e' -> pow2 52 <= m' /\ (m' = pow2 52 -> m' * pow2 (e' + 2200) <= x)) ->
  (forall h, valid_binary h = true ->
             Z.abs (m' * pow2 (e' + 2200) - x) <= Z.abs (Vz h - x)) ->
  rounded_ok x (if m' =? pow2 53 then pow2 52 else m')
               (if m' =? pow2 53 then e' + 1 else e').
Proof.
  intros Hx He Hhalf Hm Hnorm Hnear.
  assert (HG : 0 < pow2 (e' + 2200)) by (apply pow2_pos; lia).
  assert (H52 : 0 < pow2 52) by (apply pow2_pos; lia).
  pose proof pow2_53 as H53.
  destruct (Z.eqb_spec m' (pow2 53)) as [Hc|Hc].
  - assert (HG1 : pow2 (e' + 1 + 2200) = 2 * pow2 (e' + 2200)).
    { replace (e' + 1 + 2200) with ((e' + 2200) + 1) by lia. apply pow2_succ. lia. }
    assert (Hsame : pow2 52 * pow2 (e' + 1 + 2200) = m' * pow2 (e' + 2200))
      by (rewrite HG1, Hc, H53; ring).
    unfold rounded_ok. rewrite Hsame.
    split; [lia|]. split; [lia|]. split; [lia|]. split; [right; lia|].
    split; [lia|]. split; [|exact Hnear].
    intros _ Hup. rewrite Hc in *. nia.
  - unfold rounded_ok.
    split; [lia|]. split; [lia|]. split; [lia|]. split.
    { destruct (Z.eq_dec e' (-1074)); [now left|right]. apply Hnorm. lia. }
    split; [exact Hhalf|]. split; [|exact Hnear].
    intros Hlow Hup. destruct (Hnorm Hlow) as [Hge Heq].
    assert (m' <> pow2 52) by (intros E; specialize (Heq E); lia).
    nia.
Qed.

Lemma shr_nop (mrs : shr_record) (e n : Z) : n <= 0 -> shr mrs e n = (mrs, e).
Proof. destruct n; [reflexivity|lia|reflexivity]. Qed.

Lemma Zdigits2_small (m : Z) : 0 <= m < pow2 53 -> Zdigits2 m <= 53.
Proof.
  intros Hm. destruct m as [|p|p]; cbn [Zdigits2]; try lia.
  pose proof (digits2_pos_bounds p) as Hd.
  destruct (Z.le_gt_cases (Zpos (digits2_pos p)) 53) as [|Hgt]; [assumption|].
  assert (pow2 53 <= pow2 (Zpos (digits2_pos p) - 1)) by (apply pow2_le; lia).
  lia.
Qed.

Lemma Zdigits2_pow53 : Zdigits2 (pow2 53) = 54.
Proof.
  assert (H : 0 < pow2 53) by (apply pow2_pos; lia).
  destruct (pow2 53) as [|p|p] eqn:E; try lia. cbn [Zdigits2].
  apply (digits_unique (Zpos p)); [reflexivity|lia|].
  rewrite <- E. change (54 - 1) with 53. rewrite pow2_54. lia.
Qed.

Lemma mk_float_eq (s : bool) (m e : Z) :
  match m with
  | 0 => S754_zero s
  | Z.pos p => if e <=? emax - prec then S754_finite s p e else S754_infinity s
  | Z.neg _ => S754_nan
  end = mk_float s m e.
Proof. reflexivity. Qed.

Lemma second_shift (s : bool) (m' e' : Z) :
  0 <= m' <= pow2 53 -> -1074 <= e' ->
  (let '(mrs'', e'') := shr_fexp prec emax m' e' loc_Exact in
   match shr_m mrs'' with
   | 0 => S754_zero s
   | Z.pos p => if e'' <=? emax - prec then S754_finite s p e'' else S754_infinity s
   | Z.neg _ => S754_nan
   end)
  = mk_float s (if m' =? pow2 53 then pow2 52 else m')
               (if m' =? pow2 53 then e' + 1 else e').
Proof.
  intros Hm He. unfold shr_fexp. rewrite fexp64.
  destruct (Z.eqb_spec m' (pow2 53)) as [Hc|Hc].
  - rewrite Hc, Zdigits2_pow53.
    replace (Z.max (54 + e' - 53) (-1074) - e') with 1 by lia.
    cbn [shr SpecFloat.iter_pos shr_record_of_loc].
    assert (H53 : 0 <= pow2 53) by lia.
    rewrite shr_1_nonneg by exact H53. cbn [shr_m].
    replace (pow2 53 / 2) with (pow2 52).
    2:{ rewrite pow2_53, Z.mul_comm, Z.div_mul by lia. reflexivity. }
    apply mk_float_eq.
  - pose proof (Zdigits2_small m' ltac:(lia)) as Hd.
    rewrite shr_nop by lia. cbn [shr_record_of_loc shr_m].
    apply mk_float_eq.
Qed.

(** [binary_round_aux] on an exact mantissa returns a correct rounding. *)
Lemma round_aux_spec (s : bool) (M : positive) (E : Z) :
  - 2200 <= E ->
  E <= fexp prec emax (Zpos (digits2_pos M) + E) ->
  exists m e,
    binary_round_aux prec emax s (Zpos M) E loc_Exact = mk_float s m e /\
    rounded_ok (Zpos M * pow2 (E + 2200)) m e.
Proof.
  intros HE Hf.
  assert (Hx : 0 < Zpos M * pow2 (E + 2200)).
  { assert (0 < pow2 (E + 2200)) by (apply pow2_pos; lia). nia. }
  unfold binary_round_aux.
  unfold shr_fexp at 1. cbn [Zdigits2 shr_record_of_loc].
  destruct (fexp prec emax (Zpos (digits2_pos M) + E) - E) as [|p|p] eqn:Hn;
    [| |lia].
  - (* no shift *)
    cbn [shr shr_m loc_of_shr_record round_nearest_even].
    destruct (pre_round M E 0 (Zpos M) HE ltac:(lia) ltac:(lia))
      as (He' & Hhalf & Hm & Hnorm & Hnear).
    { rewrite pow2_0, Z.div_1_r. lia. }
    { rewrite pow2_0. lia. }
    rewrite Z.add_0_r in *.
    rewrite second_shift by lia.
    eexists _, _. split; [reflexivity|].
    apply carry_round; try assumption; lia.
  - (* shift by [p] bits *)
    cbn [shr].
    pose proof (rne_shift (Zpos M) p ltac:(lia)) as Hr. cbv zeta in Hr.
    set (rec := SpecFloat.iter_pos shr_1 p _) in *.
    set (m' := round_nearest_even (shr_m rec) (loc_of_shr_record rec)) in *.
    destruct Hr as [Hq Hr].
    destruct (pre_round M E (Zpos p) m' HE ltac:(lia) ltac:(lia) Hq Hr)
      as (He' & Hhalf & Hm & Hnorm & Hnear).
    rewrite second_shift by lia.
    eexists _, _. split; [reflexivity|].
    apply carry_round; try assumption; lia.
Qed.

(** *** From rounded pairs to numbers *)

Lemma rounds_exact (x : Z) (r : spec_float) :
  valid_binary r = true -> SFfin r = true -> Vz r = x -> rounds x r.
Proof.
  intros Hv Hf <-. split; [exact Hv|]. split; [rewrite Hf; discriminate|].
  intros _. split; [intros h _; lia|]. split; [reflexivity|lia].
Qed.

Lemma valid_opp (h : spec_float) :
  valid_binary (SFopp h) = valid_binary h.
Proof. destruct h; reflexivity. Qed.

Lemma Vz_opp (h : spec_float) : Vz (SFopp h) = - Vz h.
Proof. destruct h as [| | |[] m e]; cbn; lia. Qed.

Lemma valid_abs (h : spec_float) :
  valid_binary h = true -> valid_binary (SFabs h) = true.
Proof. destruct h; intros; assumption. Qed.

Lemma Vz_abs (h : spec_float) : Vz (SFabs h) = Z.abs (Vz h).
Proof.
  destruct h as [| | |[] m e]; cbn [SFabs Vz cond_Zopp]; try reflexivity.
  - assert (0 <= pow2 (e + 2200)) by (unfold pow2 at 1; apply Z.pow_nonneg; lia). nia.
  - assert (0 <= pow2 (e + 2200)) by (unfold pow2 at 1; apply Z.pow_nonneg; lia). nia.
Qed.

Lemma valid_bound (h : spec_float) :
  valid_binary h = true -> Z.abs (Vz h) < pow2 (1024 + 2200).
Proof.
  intros Hv. destruct h as [| | |s m e]; cbn [Vz]; try (rewrite Z.abs_0; apply pow2_pos; lia).
  apply valid_finite in Hv. destruct Hv as (He & Hm & _).
  pose proof (Vz_bound_pos m e ltac:(lia) Hm) as Hb.
  assert (pow2 (53 + e + 2200) <= pow2 (1024 + 2200)) by (apply pow2_le; lia).
  assert (0 < pow2 (e + 2200)) by (apply pow2_pos; lia).
  destruct s; cbn [cond_Zopp]; lia.
Qed.

(** From the rounded pair to the float: positive exact value. *)
Lemma mk_float_rounds (s : bool) (x m e : Z) :
  0 < x -> rounded_ok x m e -> rounds (cond_Zopp s x) (mk_float s m e).
Proof.
  intros Hx (Hm & He & Hm53 & Hnorm & Hhalf & Hrel & Hnear).
  assert (HG : 0 < pow2 (e + 2200)) by (apply pow2_pos; lia).
  assert (Habsx : Z.abs (cond_Zopp s x) = x) by (destruct s; cbn [cond_Zopp]; lia).
  (* nearest, in signed form *)
  assert (Hsigned : forall h, valid_binary h = true ->
            Z.abs (cond_Zopp s (m * pow2 (e + 2200)) - cond_Zopp s x)
            <= Z.abs (Vz h - cond_Zopp s x)).
  { intros h Hv. destruct s; cbn [cond_Zopp].
    - specialize (Hnear (SFopp h)). rewrite valid_opp, Vz_opp in Hnear.
      specialize (Hnear Hv). lia.
    - apply Hnear, Hv. }
  assert (Hlow : Z.divide (pow2 (2200 - 1074)) x -> m * pow2 (e + 2200) < pow2 (2200 - 1021) ->
                 m * pow2 (e + 2200) = x).
  { intros [k Hk] Hsmall.
    assert (e = -1074).
    { destruct Hnorm as [?|Hn]; [assumption|].
      destruct (Z.eq_dec e (-1074)); [assumption|exfalso].
      assert (pow2 (2200 - 1021) <= pow2 (52 + (e + 2200))) by (apply pow2_le; lia).
      rewrite (pow2_add 52 (e + 2200)) in * by lia. nia. }
    subst e. change (-1074 + 2200) with (2200 - 1074) in *.
    set (G := pow2 (2200 - 1074)) in *. subst x.
    assert (m = k \/ m <= k - 1 \/ k + 1 <= m) as [->|[Hlt|Hgt]] by lia;
      [reflexivity|exfalso; nia|exfalso; nia]. }
  assert (Hstrict : pow2 (2200 - 1021) <= m * pow2 (e + 2200) -> x < m * pow2 (e + 2200) ->
            pow2 53 * (m * pow2 (e + 2200) - x) < m * pow2 (e + 2200)).
  { intros Hbig Hup. apply Hrel; [|exact Hup].
    destruct (Z.eq_dec e (-1074)) as [->|]; [exfalso|lia].
    assert (pow2 (53 + (-1074 + 2200)) = pow2 53 * pow2 (-1074 + 2200))
      by (apply pow2_add; lia).
    change (53 + (-1074 + 2200)) with (2200 - 1021) in *. nia. }
  destruct m as [|p|p]; [| |lia]; cbn [mk_float].
  - (* rounded to zero *)
    rewrite Z.mul_0_l in *. cbn [cond_Zopp] in Hsigned.
    replace (cond_Zopp s 0) with 0 in Hsigned by (destruct s; reflexivity).
    split; [reflexivity|]. split; [discriminate|]. intros _.
    cbn [Vz]. split; [exact Hsigned|]. split.
    + intros Hdiv _. destruct s; cbn [cond_Zopp] in *.
      * destruct Hdiv as [k Hk]. assert (Hd : Z.divide (pow2 (2200 - 1074)) x)
          by (exists (- k); lia).
        assert (pow2 (2200 - 1021) > 0) by (assert (0 < pow2 (2200 - 1021)) by (apply pow2_pos; lia); lia).
        specialize (Hlow Hd ltac:(lia)). lia.
      * assert (pow2 (2200 - 1021) > 0) by (assert (0 < pow2 (2200 - 1021)) by (apply pow2_pos; lia); lia).
        specialize (Hlow Hdiv ltac:(lia)). lia.
    + intros Hbig. rewrite Z.abs_0 in Hbig.
      assert (0 < pow2 (2200 - 1021)) by (apply pow2_pos; lia). lia.
  - destruct (Z.leb_spec e 971) as [Hle|Hgt].
    + (* a finite float *)
      assert (Hval : valid_binary (S754_finite s p e) = true)
        by (apply valid_finite; lia).
      assert (Hpos : 0 < Zpos p * pow2 (e + 2200)) by nia.
      assert (Habsr : Z.abs (cond_Zopp s (Zpos p * pow2 (e + 2200)))
                      = Zpos p * pow2 (e + 2200)) by (destruct s; cbn [cond_Zopp]; lia).
      split; [exact Hval|]. split; [discriminate|]. intros _. cbn [Vz].
      split; [exact Hsigned|]. rewrite Habsr, Habsx. split; [|exact Hstrict].
      intros Hdiv Hsmall.
      assert (Hd : Z.divide (pow2 (2200 - 1074)) x).
      { destruct s; cbn [cond_Zopp] in Hdiv; [|exact Hdiv].
        destruct Hdiv as [k Hk]. exists (- k). lia. }
      rewrite (Hlow Hd Hsmall). reflexivity.
    + (* overflow *)
      split; [reflexivity|]. split; [|discriminate]. intros _ h Hv.
      rewrite Habsx. pose proof (valid_bound h Hv) as Hb.
      specialize (Hnear (SFabs h) (valid_abs h Hv)). rewrite Vz_abs in Hnear.
      assert (pow2 (1024 + 2200) <= Zpos p * pow2 (e + 2200)).
      { destruct Hnorm as [?|Hn]; [lia|].
        assert (pow2 (1024 + 2200) <= pow2 (52 + (e + 2200))) by (apply pow2_le; lia).
        rewrite (pow2_add 52 (e + 2200)) in * by lia. nia. }
      lia.
Qed.

(** The same for either sign, as a statement on the number returned. *)
Lemma round_aux_rounds (s : bool) (M : positive) (E : Z) :
  - 2200 <= E ->
  E <= fexp prec emax (Zpos (digits2_pos M) + E) ->
  rounds (cond_Zopp s (Zpos M * pow2 (E + 2200)))
         (binary_round_aux prec emax s (Zpos M) E loc_Exact).
Proof.
  intros HE Hf. destruct (round_aux_spec s M E HE Hf) as (m & e & -> & Hok).
  apply mk_float_rounds; [|exact Hok].
  assert (0 < pow2 (E + 2200)) by (apply pow2_pos; lia). nia.
Qed.

(** *** Sum, difference and product *)

Lemma iter_xO (m d : positive) :
  Zpos (Pos.iter xO m d) = Zpos m * pow2 (Zpos d).
Proof.
  induction d as [|d IH] using Pos.peano_ind.
  - cbn [Pos.iter]. rewrite Pos2Z.inj_xO. change (pow2 1) with 2. lia.
  - rewrite Pos.iter_succ, Pos2Z.inj_xO, IH, Pos2Z.inj_succ.
    replace (Z.succ (Zpos d)) with (Zpos d + 1) by lia.
    rewrite pow2_succ by lia. ring.
Qed.

Lemma shl_align_cases (mx : positive) (ex ex' : Z) :
  (ex' < ex /\
   exists m', shl_align mx ex ex' = (m', ex') /\
              Zpos m' = Zpos mx * pow2 (ex - ex')) \/
  (ex <= ex' /\ shl_align mx ex ex' = (mx, ex)).
Proof.
  unfold shl_align. destruct (ex' - ex) as [|d|d] eqn:Hd.
  - right. split; [lia|reflexivity].
  - right. split; [lia|reflexivity].
  - left. split; [lia|]. eexists. split; [reflexivity|].
    rewrite iter_xO. f_equal. f_equal. lia.
Qed.

Lemma shl_align_fst (mx : positive) (ex ez : Z) :
  ez <= ex -> Zpos (fst (shl_align mx ex ez)) = Zpos mx * pow2 (ex - ez).
Proof.
  intros Hle. destruct (shl_align_cases mx ex ez) as [[_ (m' & -> & Hm)]|[Hge ->]].
  - exact Hm.
  - cbn [fst]. replace (ex - ez) with 0 by lia. rewrite pow2_0. lia.
Qed.

Lemma digits_shift (m m' : positive) (k : Z) :
  0 <= k -> Zpos m' = Zpos m * pow2 k ->
  Zpos (digits2_pos m') = Zpos (digits2_pos m) + k.
Proof.
  intros Hk Hm. pose proof (digits2_pos_bounds m) as Hd.
  set (d := Zpos (digits2_pos m)) in *. assert (0 < d) by (unfold d; lia).
  assert (0 < pow2 k) by (apply pow2_pos; lia).
  apply (digits_unique (Zpos m')); [reflexivity|lia|].
  assert (pow2 (d + k - 1) = pow2 (d - 1) * pow2 k).
  { replace (d + k - 1) with ((d - 1) + k) by lia. apply pow2_add; lia. }
  assert (pow2 (d + k) = pow2 d * pow2 k) by (apply pow2_add; lia).
  nia.
Qed.

Lemma binary_round_rounds (s : bool) (M : positive) (E : Z) :
  -1074 <= E ->
  rounds (cond_Zopp s (Zpos M * pow2 (E + 2200))) (binary_round prec emax s M E).
Proof.
  intros HE. unfold binary_round.
  pose proof (fexp64 (Zpos (digits2_pos M) + E)) as Hf.
  destruct (shl_align_cases M E (fexp prec emax (Zpos (digits2_pos M) + E)))
    as [[Hlt (m' & -> & Hm)]|[Hge ->]].
  - assert (Hsame : Zpos M * pow2 (E + 2200)
                    = Zpos m' * pow2 (fexp prec emax (Zpos (digits2_pos M) + E) + 2200)).
    { set (e1 := fexp prec emax (Zpos (digits2_pos M) + E)) in *.
      clearbody e1.
      assert (Hs : pow2 (E + 2200) = pow2 (E - e1) * pow2 (e1 + 2200)).
      { rewrite <- pow2_add by lia. f_equal. lia. }
      rewrite Hm, Hs. ring. }
    rewrite Hsame. apply round_aux_rounds; [lia|].
    assert (Hk : 0 <= E - fexp prec emax (Zpos (digits2_pos M) + E)) by lia.
    rewrite (digits_shift M m' _ Hk Hm).
    replace (Zpos (digits2_pos M)
             + (E - fexp prec emax (Zpos (digits2_pos M) + E))
             + fexp prec emax (Zpos (digits2_pos M) + E))
      with (Zpos (digits2_pos M) + E) by lia.
    lia.
  - apply round_aux_rounds; lia.
Qed.

Lemma binary_normalize_rounds (m E : Z) :
  -1074 <= E ->
  rounds (m * pow2 (E + 2200)) (binary_normalize prec emax m E false).
Proof.
  intros HE. destruct m as [|p|p]; cbn [binary_normalize].
  - apply rounds_exact; reflexivity.
  - apply (binary_round_rounds false p E HE).
  - replace (Zneg p * pow2 (E + 2200)) with (cond_Zopp true (Zpos p * pow2 (E + 2200)))
      by (cbn [cond_Zopp]; lia).
    apply (binary_round_rounds true p E HE).
Qed.

Lemma aligned_value (s : bool) (m : positive) (e ez : Z) :
  -1074 <= ez <= e ->
  cond_Zopp s (Zpos (fst (shl_align m e ez))) * pow2 (ez + 2200)
  = Vz (S754_finite s m e).
Proof.
  intros He. rewrite shl_align_fst by lia. cbn [Vz].
  assert (pow2 (e + 2200) = pow2 (e - ez) * pow2 (ez + 2200)).
  { rewrite <- pow2_add by lia. f_equal. lia. }
  destruct s; cbn [cond_Zopp]; nia.
Qed.

(** The sum of two finite numbers is the rounding of their exact sum. *)
Lemma SFadd_rounds (a b : spec_float) :
  valid_binary a = true -> valid_binary b = true ->
  SFfin a = true -> SFfin b = true ->
  rounds (Vz a + Vz b) (SFadd prec emax a b).
Proof.
  intros Ha Hb Hfa Hfb.
  destruct a as [sa|sa| |sa ma ea], b as [sb|sb| |sb mb eb]; try discriminate.
  - destruct sa, sb; apply rounds_exact; reflexivity.
  - apply rounds_exact; [exact Hb|reflexivity|reflexivity].
  - apply rounds_exact; [exact Ha|reflexivity|].
    cbn [SFadd Vz]. rewrite Z.add_0_r. reflexivity.
  - cbn [SFadd].
    pose proof (proj1 (valid_finite _ _ _) Ha) as (Hea & _).
    pose proof (proj1 (valid_finite _ _ _) Hb) as (Heb & _).
    rewrite <- (aligned_value sa ma ea (Z.min ea eb)) by lia.
    rewrite <- (aligned_value sb mb eb (Z.min ea eb)) by lia.
    rewrite <- Z.mul_add_distr_r.
    apply binary_normalize_rounds. lia.
Qed.

(** The difference of two finite numbers is the rounding of their exact
    difference. *)
Lemma SFsub_rounds (a b : spec_float) :
  valid_binary a = true -> valid_binary b = true ->
  SFfin a = true -> SFfin b = true ->
  rounds (Vz a - Vz b) (SFsub prec emax a b).
Proof.
  intros Ha Hb Hfa Hfb.
  destruct a as [sa|sa| |sa ma ea], b as [sb|sb| |sb mb eb]; try discriminate.
  - destruct sa, sb; apply rounds_exact; reflexivity.
  - apply rounds_exact; [exact Hb|reflexivity|].
    cbn [SFsub Vz]. destruct sb; cbn [negb cond_Zopp]; lia.
  - apply rounds_exact; [exact Ha|reflexivity|].
    cbn [SFsub Vz]. rewrite Z.sub_0_r. reflexivity.
  - cbn [SFsub].
    pose proof (proj1 (valid_finite _ _ _) Ha) as (Hea & _).
    pose proof (proj1 (valid_finite _ _ _) Hb) as (Heb & _).
    rewrite <- (aligned_value sa ma ea (Z.min ea eb)) by lia.
    rewrite <- (aligned_value sb mb eb (Z.min ea eb)) by lia.
    rewrite <- Z.mul_sub_distr_r.
    apply binary_normalize_rounds. lia.
Qed.

Lemma digits_mul (ma mb : positive) :
  Zpos (digits2_pos ma) + Zpos (digits2_pos mb) - 1
  <= Zpos (digits2_pos (ma * mb)).
Proof.
  pose proof (digits2_pos_bounds ma) as Ha.
  pose proof (digits2_pos_bounds mb) as Hb.
  pose proof (digits2_pos_bounds (ma * mb)) as Hab.
  rewrite Pos2Z.inj_mul in Hab.
  set (da := Zpos (digits2_pos ma)) in *. set (db := Zpos (digits2_pos mb)) in *.
  set (d := Zpos (digits2_pos (ma * mb))) in *.
  assert (0 < da) by (unfold da; lia). assert (0 < db) by (unfold db; lia).
  assert (0 < d) by (unfold d; lia).
  destruct (Z.le_gt_cases (da + db - 1) d) as [|Hlt]; [assumption|exfalso].
  assert (pow2 d <= pow2 ((da - 1) + (db - 1))) by (apply pow2_le; lia).
  rewrite pow2_add in * by lia.
  assert (0 < pow2 (da - 1)) by (apply pow2_pos; lia).
  assert (0 < pow2 (db - 1)) by (apply pow2_pos; lia).
  nia.
Qed.

(** The product of two finite numbers is the rounding of their exact
    product, which is [x] in units of [2^-2200]. *)
Lemma SFmul_rounds (a b : spec_float) :
  valid_binary a = true -> valid_binary b = true ->
  SFfin a = true -> SFfin b = true ->
  exists x, x * pow2 2200 = Vz a * Vz b /\ rounds x (SFmul prec emax a b).
Proof.
  intros Ha Hb Hfa Hfb.
  destruct a as [sa|sa| |sa ma ea], b as [sb|sb| |sb mb eb]; try discriminate;
    try (exists 0; split; [cbn [Vz]; lia|apply rounds_exact; reflexivity]).
  cbn [SFmul].
  exists (cond_Zopp (xorb sa sb) (Zpos (ma * mb) * pow2 (ea + eb + 2200))). split.
  - pose proof (proj1 (valid_finite _ _ _) Ha) as (Hea & _).
    pose proof (proj1 (valid_finite _ _ _) Hb) as (Heb & _).
    cbn [Vz]. rewrite Pos2Z.inj_mul.
    assert (Hp : pow2 (ea + eb + 2200) * pow2 2200 = pow2 (ea + 2200) * pow2 (eb + 2200)).
    { rewrite <- !pow2_add by lia. f_equal. lia. }
    set (A := pow2 (ea + 2200)) in *. set (B := pow2 (eb + 2200)) in *.
    set (P := pow2 (ea + eb + 2200)) in *. set (Q := pow2 2200) in *.
    assert (Hk : forall k, k * P * Q = k * (A * B))
      by (intros k; rewrite <- Hp; ring).
    destruct sa, sb; cbn [xorb cond_Zopp].
    + rewrite Hk. ring.
    + replace (- (Zpos ma * Zpos mb * P) * Q) with (- (Zpos ma * Zpos mb * P * Q)) by ring.
      rewrite Hk. ring.
    + replace (- (Zpos ma * Zpos mb * P) * Q) with (- (Zpos ma * Zpos mb * P * Q)) by ring.
      rewrite Hk. ring.
    + rewrite Hk. ring.
  - cbn [SpecFloat.valid_binary] in Ha, Hb. unfold bounded in Ha, Hb.
    apply andb_true_iff in Ha, Hb. destruct Ha as [Ha Ha'], Hb as [Hb Hb'].
    unfold canonical_mantissa in Ha, Hb. apply Z.eqb_eq in Ha, Hb.
    rewrite fexp64 in Ha, Hb.
    pose proof (digits_mul ma mb) as Hd.
    assert (0 < Zpos (digits2_pos ma)) by lia.
    assert (0 < Zpos (digits2_pos mb)) by lia.
    apply round_aux_rounds; [lia|]. rewrite fexp64. lia.
Qed.

(** *** Comparison *)

Lemma Vz_pos_lt (m1 m2 : positive) (e1 e2 : Z) :
  canonical_mantissa prec emax m1 e1 = true ->
  canonical_mantissa prec emax m2 e2 = true ->
  e1 < e2 ->
  Zpos m1 * pow2 (e1 + 2200) < Zpos m2 * pow2 (e2 + 2200).
Proof.
  intros H1 H2 Hlt. apply canonical_facts in H1, H2.
  destruct H1 as (He1 & Hm1 & _), H2 as (He2 & Hm2 & Hn2).
  destruct Hn2 as [->|Hn2]; [lia|].
  assert (0 < pow2 (e1 + 2200)) by (apply pow2_pos; lia).
  assert (pow2 (e1 + 2200 + 1) <= pow2 (e2 + 2200)) by (apply pow2_le; lia).
  rewrite pow2_succ in * by lia. pose proof pow2_53. nia.
Qed.

Lemma Vz_finite_pos (m : positive) (e : Z) :
  -1074 <= e -> 0 < Zpos m * pow2 (e + 2200).
Proof. intros. assert (0 < pow2 (e + 2200)) by (apply pow2_pos; lia). nia. Qed.

(** On finite numbers the comparison is that of the values. *)
Lemma SFcompare_spec (a b : spec_float) :
  valid_binary a = true -> valid_binary b = true ->
  SFfin a = true -> SFfin b = true ->
  SFcompare a b = Some (Z.compare (Vz a) (Vz b)).
Proof.
  intros Ha Hb Hfa Hfb.
  destruct a as [sa|sa| |sa ma ea], b as [sb|sb| |sb mb eb]; try discriminate.
  - reflexivity.
  - pose proof (proj1 (valid_finite _ _ _) Hb) as (Heb & _).
    pose proof (Vz_finite_pos mb eb ltac:(lia)).
    cbn [SFcompare Vz]. f_equal. symmetry.
    destruct sb; cbn [cond_Zopp]; [apply Z.compare_gt_iff|apply Z.compare_lt_iff]; lia.
  - pose proof (proj1 (valid_finite _ _ _) Ha) as (Hea & _).
    pose proof (Vz_finite_pos ma ea ltac:(lia)).
    cbn [SFcompare Vz]. f_equal. symmetry.
    destruct sa; cbn [cond_Zopp]; [apply Z.compare_lt_iff|apply Z.compare_gt_iff]; lia.
  - pose proof (proj1 (valid_finite _ _ _) Ha) as (Hea & _).
    pose proof (proj1 (valid_finite _ _ _) Hb) as (Heb & _).
    pose proof (Vz_finite_pos ma ea ltac:(lia)) as Hpa.
    pose proof (Vz_finite_pos mb eb ltac:(lia)) as Hpb.
    cbn [SpecFloat.valid_binary] in Ha, Hb. unfold bounded in Ha, Hb.
    apply andb_true_iff in Ha, Hb. destruct Ha as [Ha _], Hb as [Hb _].
    assert (Hsame : ea = eb ->
              (Zpos ma * pow2 (ea + 2200) ?= Zpos mb * pow2 (eb + 2200))
              = Pos.compare_cont Eq ma mb).
    { intros ->. change (Pos.compare_cont Eq ma mb) with (Zpos ma ?= Zpos mb).
      symmetry. apply Zmult_compare_compat_r.
      assert (0 < pow2 (eb + 2200)) by (apply pow2_pos; lia). lia. }
    cbn [SFcompare Vz]. f_equal.
    destruct sa, sb; cbn [cond_Zopp].
    + rewrite Z.compare_opp.
      destruct (Z.compare_spec ea eb) as [He|He|He].
      * rewrite Z.compare_antisym, (Hsame He). reflexivity.
      * pose proof (Vz_pos_lt ma mb ea eb Ha Hb He). symmetry.
        apply Z.compare_gt_iff. lia.
      * pose proof (Vz_pos_lt mb ma eb ea Hb Ha He). symmetry.
        apply Z.compare_lt_iff. lia.
    + symmetry. apply Z.compare_lt_iff. lia.
    + symmetry. apply Z.compare_gt_iff. lia.
    + destruct (Z.compare_spec ea eb) as [He|He|He].
      * rewrite (Hsame He). reflexivity.
      * pose proof (Vz_pos_lt ma mb ea eb Ha Hb He). symmetry.
        apply Z.compare_lt_iff. lia.
      * pose proof (Vz_pos_lt mb ma eb ea Hb Ha He). symmetry.
        apply Z.compare_gt_iff. lia.
Qed.

Lemma SFleb_spec (a b : spec_float) :
  valid_binary a = true -> valid_binary b = true ->
  SFfin a = true -> SFfin b = true ->
  (SFleb a b = true <-> Vz a <= Vz b).
Proof.
  intros Ha Hb Hfa Hfb. unfold SFleb. rewrite (SFcompare_spec a b Ha Hb Hfa Hfb).
  destruct (Z.compare_spec (Vz a) (Vz b)); split; intros; try lia; try reflexivity;
    discriminate.
Qed.

Lemma SFltb_spec (a b : spec_float) :
  valid_binary a = true -> valid_binary b = true ->
  SFfin a = true -> SFfin b = true ->
  (SFltb a b = true <-> Vz a < Vz b).
Proof.
  intros Ha Hb Hfa Hfb. unfold SFltb. rewrite (SFcompare_spec a b Ha Hb Hfa Hfb).
  destruct (Z.compare_spec (Vz a) (Vz b)); split; intros; try lia; try reflexivity;
    discriminate.
Qed.

(** Every binary64 number is a multiple of [2^-1074]. *)
Lemma Vz_grid (h : spec_float) :
  valid_binary h = true -> Z.divide (pow2 (2200 - 1074)) (Vz h).
Proof.
  intros Hv. destruct h as [| | |s m e]; cbn [Vz]; try apply Z.divide_0_r.
  apply valid_finite in Hv. destruct Hv as (He & _).
  assert (Hs : pow2 (e + 2200) = pow2 (e + 1074) * pow2 (2200 - 1074)).
  { rewrite <- pow2_add by lia. f_equal. lia. }
  rewrite Hs. destruct s; cbn [cond_Zopp].
  - exists (- (Zpos m * pow2 (e + 1074))). ring.
  - exists (Zpos m * pow2 (e + 1074)). ring.
Qed.

(** A valid float below 1 is at most [1 - 2^-53]. *)
Lemma below_one (h : spec_float) :
  valid_binary h = true -> Vz h < pow2 2200 ->
  pow2 53 * Vz h <= (pow2 53 - 1) * pow2 2200.
Proof.
  intros Hv Hlt.
  assert (HU : 0 < pow2 2200) by (apply pow2_pos; lia).
  assert (H53 : 0 < pow2 53) by (apply pow2_pos; lia).
  destruct h as [| | |s m e]; cbn [Vz] in *; try nia.
  apply valid_finite in Hv. destruct Hv as (He & Hm & _).
  assert (HG : 0 < pow2 (e + 2200)) by (apply pow2_pos; lia).
  destruct s; cbn [cond_Zopp] in *; [nia|].
  destruct (Z.le_gt_cases (-53) e) as [Hge|Hlow].
  - (* 2^53 * m * 2^e is an integer below 2^53 *)
    assert (Hs : pow2 53 * pow2 (e + 2200) = pow2 (e + 53) * pow2 2200).
    { rewrite <- !pow2_add by lia. f_equal. lia. }
    assert (0 < pow2 (e + 53)) by (apply pow2_pos; lia).
    assert (Zpos m * pow2 (e + 53) < pow2 53) by nia.
    assert (pow2 53 * (Zpos m * pow2 (e + 2200)) = Zpos m * pow2 (e + 53) * pow2 2200)
      by (rewrite <- Z.mul_assoc, <- Hs; ring).
    nia.
  - assert (Hs : pow2 2200 = pow2 (- e - 54 + 54) * pow2 (e + 2200)).
    { rewrite <- pow2_add by lia. f_equal. lia. }
    assert (1 <= pow2 (- e - 54)) by (assert (0 < pow2 (- e - 54)) by (apply pow2_pos; lia); lia).
    rewrite (pow2_add (- e - 54) 54) in Hs by lia.
    rewrite pow2_54 in Hs.
    set (K := pow2 (- e - 54)) in *. set (T := pow2 53 * pow2 (e + 2200)).
    assert (HT : 0 < T) by (unfold T; nia).
    assert (H1 : pow2 53 * (Zpos m * pow2 (e + 2200)) = Zpos m * T) by (unfold T; ring).
    assert (H2 : (pow2 53 - 1) * pow2 2200 = (pow2 53 - 1) * (2 * K) * T)
      by (rewrite Hs; unfold T; ring).
    rewrite H1, H2.
    assert (Zpos m * T <= (pow2 53 - 1) * T) by nia.
    assert ((pow2 53 - 1) * T <= (pow2 53 - 1) * (2 * K) * T) by nia.
    lia.
Qed.

(** *** The interpolation *)

Lemma Vz_one : Vz SFone64 = pow2 2200.
Proof.
  cbn [Vz SFone64 cond_Zopp].
  replace (pow2 2200) with (pow2 52 * pow2 (-52 + 2200))
    by (rewrite <- pow2_add by lia; reflexivity).
  f_equal.
Qed.

Lemma valid_one : valid_binary SFone64 = true.
Proof. reflexivity. Qed.

Lemma SFsub_fin (a b : spec_float) :
  SFfin (SFsub prec emax a b) = true -> SFfin a = true /\ SFfin b = true.
Proof.
  destruct a as [sa|sa| |sa ma ea], b as [sb|sb| |sb mb eb];
    cbn [SFsub SFfin]; try discriminate; try (split; reflexivity);
    destruct sa, sb; cbn [SFfin]; try discriminate.
Qed.

Lemma unit_fin (xi : spec_float) :
  SFleb (S754_zero false) xi = true -> SFltb xi SFone64 = true -> SFfin xi = true.
Proof.
  destruct xi as [s|[]| |s m e]; try reflexivity; cbn; discriminate.
Qed.

(** With [lo <= hi], a finite [hi - lo] and [0 <= xi < 1], the number
    [lo + xi * (hi - lo)] is finite and lies between [lo] and [hi].  The
    rounded width [D] may exceed the exact one, but then the product
    [xi * D], rounded, stays below [D] and so at most the exact width;
    the sum is then rounded between the two representable corners. *)
Theorem SF_interpolate (lo hi xi : spec_float) :
  valid_binary lo = true -> valid_binary hi = true -> valid_binary xi = true ->
  SFleb lo hi = true ->
  SFfin (SFsub prec emax hi lo) = true ->
  SFleb (S754_zero false) xi = true -> SFltb xi SFone64 = true ->
  let r := SFadd prec emax lo (SFmul prec emax xi (SFsub prec emax hi lo)) in
  SFfin r = true /\ SFleb lo r = true /\ SFleb r hi = true.
Proof.
  intros Hvlo Hvhi Hvxi Hle HfD H0 H1 r.
  destruct (SFsub_fin hi lo HfD) as [Hfhi Hflo].
  pose proof (unit_fin xi H0 H1) as Hfxi.
  apply (SFleb_spec lo hi Hvlo Hvhi Hflo Hfhi) in Hle.
  apply (SFleb_spec (S754_zero false) xi eq_refl Hvxi eq_refl Hfxi) in H0.
  cbn [Vz] in H0.
  apply (SFltb_spec xi SFone64 Hvxi valid_one Hfxi eq_refl) in H1.
  rewrite Vz_one in H1.
  pose proof (below_one xi Hvxi H1) as Hxi.
  assert (HQ : 0 < pow2 2200) by (apply pow2_pos; lia).
  assert (H53 : 0 < pow2 53) by (apply pow2_pos; lia).
  (* the width *)
  pose proof (SFsub_rounds hi lo Hvhi Hvlo Hfhi Hflo) as (HvD & _ & HD).
  specialize (HD HfD). destruct HD as (HnearD & HexactD & _).
  set (D := SFsub prec emax hi lo) in *.
  set (d := Vz hi - Vz lo) in *.
  assert (Hd0 : 0 <= d) by (unfold d; lia).
  assert (HVD0 : 0 <= Vz D).
  { specialize (HnearD (S754_zero false) eq_refl). cbn [Vz] in HnearD. lia. }
  assert (Hgrid : Z.divide (pow2 (2200 - 1074)) d).
  { unfold d. apply Z.divide_sub_r; apply Vz_grid; assumption. }
  (* the product *)
  destruct (SFmul_rounds xi D Hvxi HvD Hfxi HfD) as (y & Hy & HvP & HovP & HP).
  set (P := SFmul prec emax xi D) in *.
  assert (Hy0 : 0 <= y) by nia.
  assert (HyD : y <= Vz D) by nia.
  assert (Hyrel : pow2 53 * y <= (pow2 53 - 1) * Vz D).
  { assert (pow2 53 * y * pow2 2200 <= (pow2 53 - 1) * Vz D * pow2 2200) by nia. nia. }
  assert (HfP : SFfin P = true).
  { destruct (SFfin P) eqn:E; [reflexivity|exfalso].
    specialize (HovP eq_refl D HvD). lia. }
  specialize (HP HfP). destruct HP as (HnearP & _ & HrelP).
  assert (HVP0 : 0 <= Vz P).
  { specialize (HnearP (S754_zero false) eq_refl). cbn [Vz] in HnearP. lia. }
  assert (HVPD : Vz P <= Vz D).
  { specialize (HnearP D HvD). lia. }
  assert (HVPd : Vz P <= d).
  { destruct (Z.le_gt_cases (Vz D) d) as [|HDd]; [lia|].
    destruct (Z.le_gt_cases (Vz P) d) as [|HPd]; [assumption|exfalso].
    assert (Hbig : pow2 (2200 - 1021) <= Vz D).
    { destruct (Z.le_gt_cases (pow2 (2200 - 1021)) (Vz D)) as [|Hsmall]; [assumption|].
      specialize (HexactD Hgrid ltac:(lia)). lia. }
    assert (Vz P = Vz D).
    { specialize (HnearD P HvP). lia. }
    assert (0 < Vz D) by lia.
    specialize (HrelP ltac:(lia) ltac:(nia)). nia. }
  (* the sum *)
  pose proof (SFadd_rounds lo P Hvlo HvP Hflo HfP) as (HvR & HovR & HR).
  fold r in HvR, HovR, HR.
  assert (HfR : SFfin r = true).
  { destruct (SFfin r) eqn:E; [reflexivity|exfalso].
    pose proof (HovR eq_refl lo Hvlo). pose proof (HovR eq_refl hi Hvhi).
    unfold d in *. lia. }
  specialize (HR HfR). destruct HR as (HnearR & _).
  pose proof (HnearR lo Hvlo). pose proof (HnearR hi Hvhi).
  split; [exact HfR|]. split.
  - apply (SFleb_spec lo r Hvlo HvR Hflo HfR). unfold d in *. lia.
  - apply (SFleb_spec r hi HvR Hvhi HfR Hfhi). unfold d in *. lia.
Qed.

(** *** The primitive numbers *)

Lemma Prim2SF_zero : Prim2SF PrimFloat.zero = S754_zero false.
Proof. reflexivity. Qed.

Lemma Prim2SF_one : Prim2SF PrimFloat.one = SFone64.
Proof. reflexivity. Qed.

Lemma Prim2SF_infinity : Prim2SF infinity = S754_infinity false.
Proof. reflexivity. Qed.

Lemma is_finite_fin (x : float) :
  is_finite x = true -> SFfin (Prim2SF x) = true.
Proof.
  unfold is_finite, is_nan, is_infinity.
  rewrite !FloatAxioms.eqb_spec, FloatAxioms.abs_spec, Prim2SF_infinity.
  destruct (Prim2SF x) as [s|[]| |s m e]; cbn [SFfin]; intros Hx;
    try reflexivity; cbn in Hx; discriminate.
Qed.

(** The interpolation on [float]. *)
Theorem float_interpolate (lo hi xi : float) :
  (lo <=? hi)%float = true ->
  is_finite (hi - lo)%float = true ->
  (PrimFloat.zero <=? xi)%float = true -> (xi <? PrimFloat.one)%float = true ->
  (lo <=? lo + xi * (hi - lo))%float = true /\
  (lo + xi * (hi - lo) <=? hi)%float = true.
Proof.
  intros Hle Hfin H0 H1.
  rewrite FloatAxioms.leb_spec in Hle, H0. rewrite FloatAxioms.ltb_spec in H1.
  apply is_finite_fin in Hfin. rewrite FloatAxioms.sub_spec in Hfin.
  rewrite Prim2SF_zero in H0. rewrite Prim2SF_one in H1.
  rewrite !FloatAxioms.leb_spec, FloatAxioms.add_spec, FloatAxioms.mul_spec, FloatAxioms.sub_spec.
  destruct (SF_interpolate (Prim2SF lo) (Prim2SF hi) (Prim2SF xi)
              (Prim2SF_valid lo) (Prim2SF_valid hi) (Prim2SF_valid xi)
              Hle Hfin H0 H1) as (_ & Hlo & Hhi).
  split; assumption.
Qed.

(** The interpolation with the corners the other way round. *)
Theorem SF_interpolate_rev (lo hi xi : spec_float) :
  valid_binary lo = true -> valid_binary hi = true -> valid_binary xi = true ->
  SFleb hi lo = true ->
  SFfin (SFsub prec emax hi lo) = true ->
  SFleb (S754_zero false) xi = true -> SFltb xi SFone64 = true ->
  let r := SFadd prec emax lo (SFmul prec emax xi (SFsub prec emax hi lo)) in
  SFfin r = true /\ SFleb hi r = true /\ SFleb r lo = true.
Proof.
  intros Hvlo Hvhi Hvxi Hle HfD H0 H1 r.
  destruct (SFsub_fin hi lo HfD) as [Hfhi Hflo].
  pose proof (unit_fin xi H0 H1) as Hfxi.
  apply (SFleb_spec hi lo Hvhi Hvlo Hfhi Hflo) in Hle.
  apply (SFleb_spec (S754_zero false) xi eq_refl Hvxi eq_refl Hfxi) in H0.
  cbn [Vz] in H0.
  apply (SFltb_spec xi SFone64 Hvxi valid_one Hfxi eq_refl) in H1.
  rewrite Vz_one in H1.
  pose proof (below_one xi Hvxi H1) as Hxi.
  assert (HQ : 0 < pow2 2200) by (apply pow2_pos; lia).
  assert (H53 : 0 < pow2 53) by (apply pow2_pos; lia).
  (* the width *)
  pose proof (SFsub_rounds hi lo Hvhi Hvlo Hfhi Hflo) as (HvD & _ & HD).
  specialize (HD HfD). destruct HD as (HnearD & HexactD & _).
  set (D := SFsub prec emax hi lo) in *.
  set (d := Vz hi - Vz lo) in *.
  assert (Hd0 : d <= 0) by (unfold d; lia).
  assert (HVD0 : Vz D <= 0).
  { specialize (HnearD (S754_zero false) eq_refl). cbn [Vz] in HnearD. lia. }
  assert (Hgrid : Z.divide (pow2 (2200 - 1074)) d).
  { unfold d. apply Z.divide_sub_r; apply Vz_grid; assumption. }
  (* the product *)
  destruct (SFmul_rounds xi D Hvxi HvD Hfxi HfD) as (y & Hy & HvP & HovP & HP).
  set (P := SFmul prec emax xi D) in *.
  assert (Hy0 : y <= 0) by nia.
  assert (HyD : Vz D <= y) by nia.
  assert (Hyrel : (pow2 53 - 1) * Vz D <= pow2 53 * y).
  { assert ((pow2 53 - 1) * Vz D * pow2 2200 <= pow2 53 * y * pow2 2200)
      by nia.
    nia. }
  assert (HfP : SFfin P = true).
  { destruct (SFfin P) eqn:E; [reflexivity|exfalso].
    specialize (HovP eq_refl D HvD). lia. }
  specialize (HP HfP). destruct HP as (HnearP & _ & HrelP).
  assert (HVP0 : Vz P <= 0).
  { specialize (HnearP (S754_zero false) eq_refl). cbn [Vz] in HnearP. lia. }
  assert (HVPD : Vz D <= Vz P).
  { specialize (HnearP D HvD). lia. }
  assert (HVPd : d <= Vz P).
  { destruct (Z.le_gt_cases d (Vz D)) as [|HDd]; [lia|].
    destruct (Z.le_gt_cases d (Vz P)) as [|HPd]; [assumption|exfalso].
    assert (Hbig : pow2 (2200 - 1021) <= - Vz D).
    { destruct (Z.le_gt_cases (pow2 (2200 - 1021)) (- Vz D)) as [|Hsmall];
        [assumption|].
      specialize (HexactD Hgrid ltac:(lia)). lia. }
    assert (HPD : Vz P = Vz D).
    { specialize (HnearD P HvP). lia. }
    assert (HDneg : Vz D < 0) by lia.
    rewrite HPD in HrelP.
    rewrite (Z.abs_neq (Vz D)) in HrelP by lia.
    rewrite (Z.abs_neq y) in HrelP by lia.
    assert (Hyne : - y < - Vz D) by nia.
    specialize (HrelP Hbig Hyne). nia. }
  (* the sum *)
  pose proof (SFadd_rounds lo P Hvlo HvP Hflo HfP) as (HvR & HovR & HR).
  fold r in HvR, HovR, HR.
  assert (HfR : SFfin r = true).
  { destruct (SFfin r) eqn:E; [reflexivity|exfalso].
    pose proof (HovR eq_refl lo Hvlo). pose proof (HovR eq_refl hi Hvhi).
    unfold d in *. lia. }
  specialize (HR HfR). destruct HR as (HnearR & _).
  pose proof (HnearR lo Hvlo). pose proof (HnearR hi Hvhi).
  split; [exact HfR|]. split.
  - apply (SFleb_spec hi r Hvhi HvR Hfhi HfR). unfold d in *. lia.
  - apply (SFleb_spec r lo HvR Hvlo HfR Hflo). unfold d in *. lia.
Qed.

(** Without width: a finite number minus itself is +0, a finite number
    times a zero is a zero, and a number that is not zero plus a zero is
    the number itself. *)
Lemma SF_flat (lo xi : spec_float) :
  SFfin lo = true -> SFfin xi = true ->
  let r := SFadd prec emax lo (SFmul prec emax xi (SFsub prec emax lo lo)) in
  match lo with
  | S754_finite _ _ _ => r = lo
  | _ => exists s, r = S754_zero s
  end.
Proof.
  intros Hlo Hxi.
  destruct lo as [s|s| |s m e]; try discriminate;
    destruct xi as [sx|sx| |sx mx ex]; try discriminate.
  - destruct s, sx; cbn; eexists; reflexivity.
  - destruct s, sx; cbn; eexists; reflexivity.
  - cbn [SFsub]. rewrite Z.sub_diag. reflexivity.
  - cbn [SFsub]. rewrite Z.sub_diag. reflexivity.
Qed.

Theorem float_interpolate_rev (lo hi xi : float) :
  (hi <=? lo)%float = true ->
  is_finite (hi - lo)%float = true ->
  (PrimFloat.zero <=? xi)%float = true -> (xi <? PrimFloat.one)%float = true ->
  (hi <=? lo + xi * (hi - lo))%float = true /\
  (lo + xi * (hi - lo) <=? lo)%float = true.
Proof.
  intros Hle Hfin H0 H1.
  rewrite FloatAxioms.leb_spec in Hle, H0. rewrite FloatAxioms.ltb_spec in H1.
  apply is_finite_fin in Hfin. rewrite FloatAxioms.sub_spec in Hfin.
  rewrite Prim2SF_zero in H0. rewrite Prim2SF_one in H1.
  rewrite !FloatAxioms.leb_spec, FloatAxioms.add_spec, FloatAxioms.mul_spec,
    FloatAxioms.sub_spec.
  destruct (SF_interpolate_rev (Prim2SF lo) (Prim2SF hi) (Prim2SF xi)
              (Prim2SF_valid lo) (Prim2SF_valid hi) (Prim2SF_valid xi)
              Hle Hfin H0 H1) as (_ & Hlo & Hhi).
  split; assumption.
Qed.

(** Two numbers whose difference is finite are finite and compare one way
    or the other. *)
Lemma float_ordered (lo hi : float) :
  is_finite (hi - lo)%float = true ->
  (lo <=? hi)%float = true \/ (hi <=? lo)%float = true.
Proof.
  intros Hfin. apply is_finite_fin in Hfin.
  rewrite FloatAxioms.sub_spec in Hfin.
  destruct (SFsub_fin _ _ Hfin) as [Hfhi Hflo].
  rewrite !FloatAxioms.leb_spec.
  rewrite (SFleb_spec _ _ (Prim2SF_valid lo) (Prim2SF_valid hi) Hflo Hfhi).
  rewrite (SFleb_spec _ _ (Prim2SF_valid hi) (Prim2SF_valid lo) Hfhi Hflo).
  lia.
Qed.

(** A box without width on an axis: the sample is the corner, up to the
    sign of a zero. *)
Lemma float_flat (lo xi : float) :
  is_finite lo = true -> is_finite xi = true ->
  (lo + xi * (lo - lo) =? lo)%float = true /\
  (is_zero lo = false -> (lo + xi * (lo - lo))%float = lo).
Proof.
  intros Hlo Hxi. apply is_finite_fin in Hlo, Hxi.
  pose proof (SF_flat (Prim2SF lo) (Prim2SF xi) Hlo Hxi) as Hr.
  cbv zeta in Hr.
  rewrite <- FloatAxioms.sub_spec, <- FloatAxioms.mul_spec,
    <- FloatAxioms.add_spec in Hr.
  pose proof (Prim2SF_valid lo) as Hv.
  unfold is_zero. rewrite !FloatAxioms.eqb_spec, Prim2SF_zero.
  destruct (Prim2SF lo) as [s|s| |s m e] eqn:E; try discriminate.
  - destruct Hr as [s' ->]. split; [reflexivity|]. cbn. discriminate.
  - split.
    + rewrite Hr. unfold SFeqb.
      rewrite (SFcompare_spec _ _ Hv Hv eq_refl eq_refl), Z.compare_refl.
      reflexivity.
    + intros _. apply Prim2SF_inj. rewrite Hr, E. reflexivity.
Qed.

(** A product by a number of magnitude at most 1 does not grow: the exact
    product is at most the other factor, which is representable. *)
Lemma SFmul_le (r c : spec_float) :
  valid_binary r = true -> valid_binary c = true ->
  SFfin r = true -> SFfin c = true ->
  Z.abs (Vz c) <= pow2 2200 ->
  SFfin (SFmul prec emax r c) = true /\
  Z.abs (Vz (SFmul prec emax r c)) <= Z.abs (Vz r).
Proof.
  intros Hvr Hvc Hfr Hfc Hc.
  assert (HQ : 0 < pow2 2200) by (apply pow2_pos; lia).
  destruct (SFmul_rounds r c Hvr Hvc Hfr Hfc) as (y & Hy & HvP & HovP & HP).
  set (P := SFmul prec emax r c) in *.
  assert (Hyr : Z.abs y <= Z.abs (Vz r)).
  { assert (Hm : Z.abs y * pow2 2200 = Z.abs (Vz r) * Z.abs (Vz c)).
    { rewrite <- Z.abs_mul, <- Hy, Z.abs_mul.
      rewrite (Z.abs_eq (pow2 2200)) by lia. reflexivity. }
    pose proof (Z.abs_nonneg (Vz r)). pose proof (Z.abs_nonneg y). nia. }
  assert (HfP : SFfin P = true).
  { destruct (SFfin P) eqn:E; [reflexivity|exfalso].
    specialize (HovP eq_refl r Hvr). lia. }
  split; [exact HfP|].
  specialize (HP HfP). destruct HP as (HnearP & _).
  pose proof (HnearP r Hvr) as H1.
  pose proof (HnearP (SFopp r)) as H2.
  rewrite valid_opp, Vz_opp in H2. specialize (H2 Hvr).
  lia.
Qed.

Lemma SFfin_abs (h : spec_float) : SFfin (SFabs h) = SFfin h.
Proof. destruct h; reflexivity. Qed.

Lemma float_mul_le (r c : float) :
  is_finite r = true -> (abs c <=? PrimFloat.one)%float = true ->
  (abs (r * c) <=? abs r)%float = true.
Proof.
  intros Hr Hc. apply is_finite_fin in Hr.
  rewrite FloatAxioms.leb_spec, FloatAxioms.abs_spec, Prim2SF_one in Hc.
  pose proof (Prim2SF_valid r) as Hvr. pose proof (Prim2SF_valid c) as Hvc.
  assert (Hfc : SFfin (Prim2SF c) = true).
  { destruct (Prim2SF c) as [s|s| |s m e]; try reflexivity; discriminate. }
  apply (SFleb_spec _ _ (valid_abs _ Hvc) valid_one) in Hc;
    [|rewrite SFfin_abs; exact Hfc|reflexivity].
  rewrite Vz_abs, Vz_one in Hc.
  destruct (SFmul_le _ _ Hvr Hvc Hr Hfc Hc) as [HfP HP].
  rewrite FloatAxioms.leb_spec, !FloatAxioms.abs_spec, FloatAxioms.mul_spec.
  assert (HvP : valid_binary (SFmul prec emax (Prim2SF r) (Prim2SF c)) = true).
  { rewrite <- FloatAxioms.mul_spec. apply Prim2SF_valid. }
  apply (SFleb_spec _ _ (valid_abs _ HvP) (valid_abs _ Hvr)).
  - rewrite SFfin_abs. exact HfP.
  - rewrite SFfin_abs. exact Hr.
  - rewrite !Vz_abs. exact HP.
Qed.

End Binary64.

(** ** Sampling a box *)

Section BoxBinary64.
Context {S : Type} `{Rng float S}.

Lemma float_unit_stream_nth (k : nat) (s : S) :
  unit_stream float S ->
  (0 <=? stream_nth k s)%float = true /\ (stream_nth k s <? 1)%float = true.
Proof.
  intros Hu. specialize (Hu (advance k s)). unfold unit_interval in Hu.
  apply andb_true_iff in Hu. exact Hu.
Qed.

Lemma float_within (lo hi xi : float) :
  (lo <=? hi)%float = true -> is_finite (hi - lo)%float = true ->
  (0 <=? xi)%float = true /\ (xi <? 1)%float = true ->
  within lo (lo + xi * (hi - lo))%float hi = true.
Proof.
  intros Hle Hfin [H0 H1]. unfold within. apply andb_true_iff.
  exact (float_interpolate lo hi xi Hle Hfin H0 H1).
Qed.

Lemma float_box_point_in_box (b : SpatialBox.t float) (k : nat) (s : S) :
  valid_bounds b = true -> finite_width b = true -> unit_stream float S ->
  in_box b (box_point b k s) = true.
Proof.
  intros Hv Hw Hu. unfold valid_bounds in Hv. unfold finite_width in Hw.
  rewrite !andb_true_iff in Hv, Hw.
  destruct Hv as [[Hx Hy] Hz]. destruct Hw as [[Wx Wy] Wz].
  unfold in_box. rewrite !andb_true_iff.
  repeat split; apply float_within; try assumption;
    apply float_unit_stream_nth; assumption.
Qed.

End BoxBinary64.

(** C2, as the code has it in binary64.  [N] calls of [sample] on a box
    return, in order, the points [lower + xi * (upper - lower)] taken
    component by component in binary64 arithmetic, where the [i]-th call
    takes as [xi] the numbers [3i], [3i+1] and [3i+2] of the stream; the
    seed ends [3N] draws further.  When the corners are ordered, the
    stream is in [0, 1) and [upper - lower] is a finite number on each
    axis, every point returned lies between the corners on each axis: the
    roundings of the subtraction, the product and the sum never take it
    outside. *)
Theorem C2_box_sample_binary64 {S : Type} `{Rng float S}
    (b : SpatialBox.t float) (N : nat) (s : S) :
  draws N (SpatialBox.sample b) s =
    (map (fun i => box_point b (3 * i) s) (seq 0 N), advance (3 * N) s) /\
  length (fst (draws N (SpatialBox.sample b) s)) = N /\
  (forall k,
      box_point b k s =
      Position.mk
        (Position.x (SpatialBox.lower_left_ b) + stream_nth k s *
           (Position.x (SpatialBox.upper_right_ b)
            - Position.x (SpatialBox.lower_left_ b)))%float
        (Position.y (SpatialBox.lower_left_ b) + stream_nth (k + 1) s *
           (Position.y (SpatialBox.upper_right_ b)
            - Position.y (SpatialBox.lower_left_ b)))%float
        (Position.z (SpatialBox.lower_left_ b) + stream_nth (k + 2) s *
           (Position.z (SpatialBox.upper_right_ b)
            - Position.z (SpatialBox.lower_left_ b)))%float) /\
  (valid_bounds b = true -> finite_width b = true -> unit_stream float S ->
   Forall (fun p => in_box b p = true)
          (fst (draws N (SpatialBox.sample b) s))).
Proof.
  split; [apply SpatialBox_draws_eq|].
  split; [apply draws_length|].
  split; [reflexivity|].
  intros Hv Hw Hu. rewrite SpatialBox_draws_eq. cbn [fst].
  apply List.Forall_forall. intros p Hin.
  apply in_map_iff in Hin. destruct Hin as (i & <- & _).
  now apply float_box_point_in_box.
Qed.

Lemma half_unit_stream_float : unit_stream float nat.
Proof. intros s. vm_compute. reflexivity. Qed.

Lemma C2_box_sample_binary64_witness :
  Forall (fun p => in_box ordinary_box p = true)
         (fst (draws 2 (SpatialBox.sample ordinary_box) 0%nat)).
Proof.
  destruct (C2_box_sample_binary64 ordinary_box 2 0%nat) as (_ & _ & _ & Hin).
  apply Hin; [reflexivity|reflexivity|exact half_unit_stream_float].
Defined.

(** In binary64, on a box of ordinary size, the same call stays between
    the corners. *)
Example box_sample_binary64 :
  let b := SpatialBox.mk true (Position.mk (-1) 0 2.5)%float
                         (Position.mk 1 10 2.5)%float in
  SpatialBox.sample b 0%nat = (Position.mk 0 5 2.5, 3%nat)%float /\
  in_box b (fst (SpatialBox.sample b 0%nat)) = true.
Proof. split; vm_compute; reflexivity. Qed.

(** C2, as the spec puts it, fails in binary64: the corners of [huge_box]
    are finite and ordered and the number drawn is 0.5, yet
    [upper - lower] overflows to infinity, the point returned is infinite
    on each axis, and it is not between the corners. *)
Lemma C2_box_sample_overflow :
  valid_bounds huge_box = true /\
  unit_stream float nat /\
  fst (SpatialBox.sample huge_box 0%nat) =
    Position.mk infinity infinity infinity /\
  in_box huge_box (fst (SpatialBox.sample huge_box 0%nat)) = false /\
  ~ box_claim float nat.
Proof.
  split; [vm_compute; reflexivity|].
  split; [exact half_unit_stream_float|].
  split; [vm_compute; reflexivity|].
  split; [vm_compute; reflexivity|].
  intros Hclaim.
  specialize (Hclaim huge_box 1%nat 0%nat eq_refl half_unit_stream_float
                     (le_n 1)).
  inversion Hclaim as [|p l Hp _ Heq]. vm_compute in Hp. discriminate.
Qed.

(** ** Samplers made of three children *)

Lemma CartesianIndependent_sample_eq {D S : Type}
    (c : CartesianIndependent.t D S) (s : S) :
  CartesianIndependent.sample c s =
  (let '(x, y, z, s') :=
     three_draws (CartesianIndependent.x_ c) (CartesianIndependent.y_ c)
                 (CartesianIndependent.z_ c) s in
   (Position.mk x y z, s')).
Proof.
  unfold CartesianIndependent.sample, three_draws, bind, ret.
  destruct (Distribution_sample (CartesianIndependent.x_ c) s) as [x s1].
  cbn [fst snd].
  destruct (Distribution_sample (CartesianIndependent.y_ c) s1) as [y s2].
  cbn [fst snd].
  destruct (Distribution_sample (CartesianIndependent.z_ c) s2) as [z s3].
  reflexivity.
Qed.

Lemma CylindricalIndependent_sample_eq {D S : Type} `{Double D} `{Trig D}
    (c : CylindricalIndependent.t D S) (s : S) :
  CylindricalIndependent.sample c s =
  (let '(r, theta, z, s') :=
     three_draws (CylindricalIndependent.r_ c)
                 (CylindricalIndependent.theta_ c)
                 (CylindricalIndependent.z_ c) s in
   (Position.mk (d_mul r (d_cos theta)) (d_mul r (d_sin theta)) z, s')).
Proof.
  unfold CylindricalIndependent.sample, three_draws, bind, ret.
  destruct (Distribution_sample (CylindricalIndependent.r_ c) s) as [r s1].
  cbn [fst snd].
  destruct (Distribution_sample (CylindricalIndependent.theta_ c) s1)
    as [th s2].
  cbn [fst snd].
  destruct (Distribution_sample (CylindricalIndependent.z_ c) s2) as [z s3].
  reflexivity.
Qed.



(** C4.  A call of [sample] on a CartesianIndependent returns one draw of
    each child as (x, y, z), drawn in that order.  The constructor gives
    every axis that the configuration does not name the one-point sampler
    at 0, and when it names none of x, y and z the object it builds
    returns (0, 0, 0) at every call and leaves the seed as it was. *)
Theorem C4_cartesian_default {D S node : Type} `{Double D} `{Xml D S node}
    (nd : node) :
  (forall (c : CartesianIndependent.t D S) (s : S),
      let xs := Distribution_sample (CartesianIndependent.x_ c) s in
      let ys := Distribution_sample (CartesianIndependent.y_ c) (snd xs) in
      let zs := Distribution_sample (CartesianIndependent.z_ c) (snd ys) in
      CartesianIndependent.sample c s =
      (Position.mk (fst xs) (fst ys) (fst zs), snd zs)) /\
  (forall c,
      CartesianIndependent.CartesianIndependent nd = Ok c ->
      (check_for_node nd "x" = false ->
       CartesianIndependent.x_ c = Discrete [d_zero] [d_one] 1) /\
      (check_for_node nd "y" = false ->
       CartesianIndependent.y_ c = Discrete [d_zero] [d_one] 1) /\
      (check_for_node nd "z" = false ->
       CartesianIndependent.z_ c = Discrete [d_zero] [d_one] 1)) /\
  (check_for_node nd "x" = false ->
   check_for_node nd "y" = false ->
   check_for_node nd "z" = false ->
   exists c,
     CartesianIndependent.CartesianIndependent nd = Ok c /\
     (forall s : S,
         CartesianIndependent.sample c s =
         (Position.mk d_zero d_zero d_zero, s)) /\
     (forall (N : nat) (s : S),
         Forall (fun p => p = Position.mk d_zero d_zero d_zero)
                (fst (draws N (CartesianIndependent.sample c) s)))).
Proof.
  split; [|split].
  - intros c s. cbv zeta. rewrite CartesianIndependent_sample_eq.
    reflexivity.
  - intros c. unfold CartesianIndependent.CartesianIndependent.
    destruct (check_for_node nd "x");
      [destruct (distribution_from_xml (child nd "x")); [|discriminate]|];
    (destruct (check_for_node nd "y");
      [destruct (distribution_from_xml (child nd "y")); [|discriminate]|]);
    (destruct (check_for_node nd "z");
      [destruct (distribution_from_xml (child nd "z")); [|discriminate]|]);
    cbn [rbind]; intros [= <-]; cbn;
    repeat split; intros; try discriminate; reflexivity.
  - intros Hx Hy Hz.
    unfold CartesianIndependent.CartesianIndependent.
    rewrite Hx, Hy, Hz. cbn [rbind].
    eexists. split; [reflexivity|].
    assert (Hs : forall s : S,
               CartesianIndependent.sample
                 (CartesianIndependent.mk (Discrete [d_zero] [d_one] 1)
                    (Discrete [d_zero] [d_one] 1)
                    (Discrete [d_zero] [d_one] 1)) s =
               (Position.mk d_zero d_zero d_zero, s)) by (intros s; reflexivity).
    split; [exact Hs|].
    intros N. induction N as [|N IH]; intros s; cbn [draws].
    + constructor.
    + unfold bind at 1. rewrite Hs. unfold bind at 1.
      specialize (IH s).
      destruct (draws N _ s) as [l s']. cbn [fst ret] in *.
      constructor; [reflexivity|exact IH].
Qed.

Lemma C4_cartesian_default_witness :
  exists c : CartesianIndependent.t float nat,
    CartesianIndependent.CartesianIndependent empty_node = Ok c /\
    CartesianIndependent.sample c 7%nat = (Position.mk 0 0 0, 7%nat)%float.
Proof.
  destruct (C4_cartesian_default (S := nat) empty_node) as (_ & _ & Hnone).
  destruct (Hnone eq_refl eq_refl eq_refl) as (c & Hc & Hs & _).
  exists c. split; [exact Hc|apply Hs].
Defined.

(** ** The particle: secondary bank, seeding, loss *)

(** C5.  On a particle whose bank array has its declared size: when the
    count [n_secondary_] is at the capacity [MAX_SECONDARY] = 1000, one
    more [create_secondary] ends in the fatal error and leaves the whole
    particle, hence the count and every stored site, as it was; when the
    count [n] is below the capacity, the call succeeds, writes at index [n]
    a site with the position of level 0 and the weight of the particle and
    the direction, energy and kind given, leaves every other slot as it
    was, and makes the count [n + 1]. *)
Theorem C5_create_secondary {D : Type} `{Double D} (uvw : Position.t D)
    (E : D) (type : Z) (run_CE : bool) (this : Particle.t D) :
  length (Particle.secondary_bank_ this) = Z.to_nat MAX_SECONDARY ->
  MAX_SECONDARY = 1000%Z /\
  (Particle.n_secondary_ this = MAX_SECONDARY ->
   Particle.create_secondary uvw E type run_CE this
   = (Fatal "Too many secondary particles created.", this)) /\
  ((0 <= Particle.n_secondary_ this < MAX_SECONDARY)%Z ->
   let n := Z.to_nat (Particle.n_secondary_ this) in
   let this' := snd (Particle.create_secondary uvw E type run_CE this) in
   exists site,
     Particle.create_secondary uvw E type run_CE this
     = (Ok tt,
        Particle.set_secondary (Particle.n_secondary_ this + 1)
          (<[n := site]> (Particle.secondary_bank_ this)) this) /\
     Bank_xyz site = xyz (Particle.coord0 this) /\
     Bank_wgt site = Particle.wgt_ this /\
     Bank_uvw site = uvw /\ Bank_E site = E /\ Bank_particle site = type /\
     Particle.n_secondary_ this' = (Particle.n_secondary_ this + 1)%Z /\
     Particle.secondary_bank_ this' !! n = Some site /\
     (forall i, i <> n ->
        Particle.secondary_bank_ this' !! i
        = Particle.secondary_bank_ this !! i) /\
     length (Particle.secondary_bank_ this')
     = length (Particle.secondary_bank_ this)).
Proof.
  intros Hlen. split; [reflexivity|]. split.
  - intros Hfull. unfold Particle.create_secondary.
    rewrite Hfull, Z.leb_refl. reflexivity.
  - intros Hn. cbv zeta. unfold Particle.create_secondary.
    destruct (Z.leb_spec MAX_SECONDARY (Particle.n_secondary_ this));
      [lia|].
    eexists. split; [reflexivity|].
    cbn [snd Particle.set_secondary Particle.n_secondary_
         Particle.secondary_bank_ Bank_xyz Bank_wgt Bank_uvw Bank_E
         Bank_particle].
    repeat split.
    + apply list_lookup_insert_eq. rewrite Hlen. lia.
    + intros i Hi. now apply list_lookup_insert_ne.
    + apply length_insert.
Qed.

Lemma C5_create_secondary_witness :
  Particle.create_secondary (Position.mk 0 0 1)%float 1000000%float 0 true
    (particle_with 1000)
  = (Fatal "Too many secondary particles created.", particle_with 1000) /\
  Particle.n_secondary_
    (snd (Particle.create_secondary (Position.mk 0 0 1)%float 1000000%float
            0 true (particle_with 999))) = 1000%Z.
Proof.
  split.
  - apply (C5_create_secondary (Position.mk 0 0 1)%float 1000000%float 0
             true (particle_with 1000) eq_refl).
    reflexivity.
  - destruct (C5_create_secondary (Position.mk 0 0 1)%float 1000000%float 0
                true (particle_with 999) eq_refl) as (_ & _ & Hbelow).
    destruct Hbelow as (site & _ & _ & _ & _ & _ & _ & Hcount & _).
    + vm_compute. split; [discriminate|reflexivity].
    + exact Hcount.
Defined.

Lemma from_source_levels_above {D : Type} (l : list (LocalCoord D)) (k : nat)
    (c : LocalCoord D) :
  map LocalCoord_reset l !! k = Some c -> unset c.
Proof.
  rewrite list_lookup_fmap. destruct (l !! k) as [c'|]; [|discriminate].
  intros [= <-]. unfold unset. cbn. repeat split.
Qed.

(** C6.  For a source site in the valid ranges (weight above 0, energy
    within the configured bounds) and a particle whose array of levels is
    not empty, [from_source] succeeds, and the site read back from the
    particle is the site given, field by field: position and direction are
    those of level 0, energy, weight, kind and delayed group are the scalar
    fields.  After the call one level is in use, every level above 0 is
    unset, the secondary bank and the counters are at zero and the particle
    is alive. *)
Theorem C6_from_source_round_trip {D : Type} `{Double D} (E_min E_max : D)
    (src : Bank D) (this : Particle.t D) :
  Particle.valid_source E_min E_max src = true ->
  Particle.coord_ this <> [] ->
  exists this',
    Particle.from_source E_min E_max src this = (Ok tt, this') /\
    Particle.to_source this' = src /\
    (exists c0, Particle.coord_ this' !! 0%nat = Some c0 /\
                xyz c0 = Bank_xyz src /\ uvw c0 = Bank_uvw src) /\
    (forall k c, (1 <= k)%nat -> Particle.coord_ this' !! k = Some c ->
                 unset c) /\
    length (Particle.coord_ this') = length (Particle.coord_ this) /\
    Particle.n_coord_ this' = 1%Z /\
    Particle.E_ this' = Bank_E src /\
    Particle.wgt_ this' = Bank_wgt src /\
    Particle.type_ this' = Bank_particle src /\
    Particle.delayed_group_ this' = Bank_delayed_group src /\
    Particle.alive_ this' = true /\
    Particle.n_secondary_ this' = 0%Z /\
    Particle.n_bank_ this' = 0%Z /\
    Particle.wgt_bank_ this' = d_zero /\
    Forall (fun n => n = 0%Z) (Particle.n_delayed_bank_ this') /\
    Particle.n_collision_ this' = 0%Z.
Proof.
  intros Hvalid Hcoord. unfold Particle.from_source. rewrite Hvalid.
  cbn [negb]. eexists. split; [reflexivity|].
  destruct (Particle.coord_ this) as [|c0 above] eqn:Hc; [contradiction|].
  unfold Particle.to_source, Particle.coord0.
  cbn [Particle.coord_ Particle.E_ Particle.wgt_ Particle.type_
       Particle.delayed_group_ Particle.alive_ Particle.n_secondary_
       Particle.n_bank_ Particle.wgt_bank_ Particle.n_delayed_bank_
       Particle.n_collision_
       Particle.n_coord_ nth xyz uvw].
  split; [destruct src; reflexivity|].
  split; [eexists; split; [reflexivity|split; reflexivity]|].
  split.
  { intros [|k] c Hk; [lia|]. cbn. apply from_source_levels_above. }
  split; [cbn; now rewrite length_map|].
  repeat split.
  apply List.Forall_forall. intros n Hin.
  apply in_map_iff in Hin. now destruct Hin as (? & <- & _).
Qed.

Lemma C6_from_source_round_trip_witness :
  exists this',
    Particle.from_source 0%float 20000000%float example_site
                         (blank_particle 10) = (Ok tt, this') /\
    Particle.to_source this' = example_site.
Proof.
  destruct (C6_from_source_round_trip 0%float 20000000%float example_site
              (blank_particle 10)) as (this' & Hrun & Hback & _).
  - vm_compute. reflexivity.
  - vm_compute. discriminate.
  - exists this'. split; assumption.
Defined.



(** ** What construction of a box checks *)

(** C8, as the spec puts it, fails: a configuration whose lower x, 1, is
    above its upper x, 0, is accepted by the constructor, and the box it
    builds is sampled from. *)
Lemma C8_degenerate_box_accepted :
  (exists b : SpatialBox.t float,
      SpatialBox.SpatialBox (S := nat) reversed_numbers false = Ok b /\
      degenerate_bounds b = true /\
      SpatialBox.sample b 0%nat = (Position.mk 0.5 0.5 0.5, 3%nat)%float) /\
  ~ degenerate_rejected float nat (xml_tree float).
Proof.
  split.
  - eexists. split; [reflexivity|].
    split; vm_compute; reflexivity.
  - intros Hclaim.
    specialize (Hclaim reversed_numbers false _ eq_refl).
    vm_compute in Hclaim. discriminate.
Qed.

(** C8, as the code has it.  The constructor of SpatialBox ends in a fatal
    error in two cases only: [get_node_array] ended in one, or the array
    does not have six elements.  Six numbers are accepted whatever their
    order, and stored as they come: the corners are not compared. *)
Theorem C8_box_checks_count_only {D S node : Type} `{Double D}
    `{Xml D S node} (nd : node) (fission : bool) :
  (forall msg,
      SpatialBox.SpatialBox nd fission = Fatal msg <->
      get_node_array nd "parameters" = Fatal msg \/
      exists params,
        get_node_array nd "parameters" = Ok params /\
        length params <> 6%nat /\ msg = box_message) /\
  (forall params,
      get_node_array nd "parameters" = Ok params ->
      length params = 6%nat ->
      SpatialBox.SpatialBox nd fission =
      Ok (SpatialBox.mk fission
            (Position.mk (nth 0 params d_zero) (nth 1 params d_zero)
                         (nth 2 params d_zero))
            (Position.mk (nth 3 params d_zero) (nth 4 params d_zero)
                         (nth 5 params d_zero)))).
Proof.
  unfold SpatialBox.SpatialBox. split.
  - intros msg.
    destruct (get_node_array nd "parameters") as [params|m] eqn:Hp;
      cbn [rbind].
    + destruct (Nat.eqb_spec (length params) 6) as [Hl|Hl]; cbn [negb].
      * split; [discriminate|].
        intros [Hf|(ps & [= <-] & Hne & _)]; [discriminate|contradiction].
      * unfold fatal_error. split.
        -- intros [= <-]. right. exists params. auto.
        -- intros [Hf|(ps & _ & _ & ->)]; [discriminate|reflexivity].
    + split.
      * intros [= ->]. now left.
      * intros [[= ->]|(ps & Hf & _)]; [reflexivity|discriminate].
  - intros params -> Hl. cbn [rbind].
    apply Nat.eqb_eq in Hl. now rewrite Hl.
Qed.

Lemma C8_box_checks_count_only_witness :
  SpatialBox.SpatialBox (S := nat) reversed_numbers true =
  Ok (SpatialBox.mk true (Position.mk 1 0 0) (Position.mk 0 1 1))%float.
Proof.
  destruct (C8_box_checks_count_only (S := nat) reversed_numbers true)
    as [_ Hsix].
  apply (Hsix [1; 0; 0; 0; 1; 1]%float eq_refl eq_refl).
Defined.

(** ** What a call of sample changes *)

Lemma SpatialPoint_draws {D S : Type} (p : SpatialPoint.t D) (N : nat)
    (s : S) :
  draws N (SpatialPoint.sample p) s = (repeat (SpatialPoint.r_ p) N, s).
Proof.
  induction N as [|N IH]; [reflexivity|].
  cbn [draws]. unfold bind at 1. unfold SpatialPoint.sample at 1, ret at 1.
  unfold bind. rewrite IH. reflexivity.
Qed.

(** C9.  A call of [sample] on any of the four distributions leaves the
    object as it was: the memory after the call differs from the memory
    before it in the seed at most.  On a SpatialPoint the seed is
    unchanged too and the result is the configured point, at every call;
    on a SpatialBox the seed is three draws further. *)
Theorem C9_sample_frame {D S : Type} `{Double D} `{Trig D} `{Rng D S}
    (m : Memory D S) :
  object (snd (call_sample m)) = object m /\
  call_sample m =
    (fst (SpatialDistribution_sample (object m) (seed m)),
     mkMemory (object m)
              (snd (SpatialDistribution_sample (object m) (seed m)))) /\
  (forall (p : SpatialPoint.t D) (s : S),
      call_sample (mkMemory (Point p) s)
      = (SpatialPoint.r_ p, mkMemory (Point p) s)) /\
  (forall (p : SpatialPoint.t D) (N : nat) (s : S),
      draws N (SpatialPoint.sample p) s = (repeat (SpatialPoint.r_ p) N, s)) /\
  (forall (b : SpatialBox.t D) (s : S),
      call_sample (mkMemory (Box b) s)
      = (box_point b 0 s, mkMemory (Box b) (advance 3 s))).
Proof.
  assert (Hcall : forall m' : Memory D S,
             call_sample m' =
             (fst (SpatialDistribution_sample (object m') (seed m')),
              mkMemory (object m')
                (snd (SpatialDistribution_sample (object m') (seed m'))))).
  { intros m'. unfold call_sample.
    destruct (SpatialDistribution_sample (object m') (seed m')).
    reflexivity. }
  split; [rewrite Hcall; reflexivity|].
  split; [apply Hcall|].
  split; [intros p s; rewrite Hcall; reflexivity|].
  split; [intros p N s; apply SpatialPoint_draws|].
  intros b s. rewrite Hcall. cbn [object seed SpatialDistribution_sample].
  rewrite SpatialBox_sample_eq. reflexivity.
Qed.

(** C10.  Two boxes with the same corners, sampled from the same seed,
    return the same point and leave the same seed, whatever their
    [only_fissionable_] flags, at one call and at [N] calls.  The
    constructor stores the flag it is given, and from the same
    configuration builds the same corners for either flag. *)
Theorem C10_flag_not_read {D S node : Type} `{Double D} `{Rng D S}
    `{Xml D S node} (lo hi : Position.t D) (f1 f2 : bool) (N : nat) (s : S) :
  SpatialBox.sample (SpatialBox.mk f1 lo hi) s
  = SpatialBox.sample (SpatialBox.mk f2 lo hi) s /\
  draws N (SpatialBox.sample (SpatialBox.mk f1 lo hi)) s
  = draws N (SpatialBox.sample (SpatialBox.mk f2 lo hi)) s /\
  (forall (nd : node) b,
      SpatialBox.SpatialBox nd f1 = Ok b ->
      SpatialBox.only_fissionable_ b = f1 /\
      SpatialBox.SpatialBox nd f2 =
      Ok (SpatialBox.mk f2 (SpatialBox.lower_left_ b)
                        (SpatialBox.upper_right_ b))).
Proof.
  split; [reflexivity|].
  split.
  - rewrite !SpatialBox_draws_eq. reflexivity.
  - intros nd b. unfold SpatialBox.SpatialBox.
    destruct (get_node_array nd "parameters") as [params|m]; cbn [rbind];
      [|discriminate].
    destruct (negb (length params =? 6)%nat); [discriminate|].
    intros [= <-]. split; reflexivity.
Qed.

Lemma C10_flag_not_read_witness :
  SpatialBox.only_fissionable_
    (SpatialBox.mk true (Position.mk 1 2 3) (Position.mk 4 5 6))%float = true /\
  SpatialBox.SpatialBox (S := nat) six_numbers false =
    Ok (SpatialBox.mk false (Position.mk 1 2 3) (Position.mk 4 5 6))%float.
Proof.
  destruct (C10_flag_not_read (S := nat) (node := xml_tree float)
              (Position.mk 1 2 3)%float (Position.mk 4 5 6)%float
              true false 1 0%nat) as (_ & _ & Hctor).
  apply (Hctor six_numbers). reflexivity.
Defined.

(** * Further properties of distribution_spatial.cpp *)

(** ** Outcome of the constructors with per-axis children *)

Section Axes.
Context {D S node : Type} `{Double D} `{Xml D S node}.

Lemma axis_ok_iff (nd : node) (name : string) :
  (check_for_node nd name = true ->
   exists d, distribution_from_xml (child nd name) = Ok d) <->
  exists d, axis_distribution nd name = Ok d.
Proof.
  unfold axis_distribution.
  destruct (check_for_node nd name).
  - split; [intros Hp; now apply Hp|intros Hd _; exact Hd].
  - split; [intros _; eexists; reflexivity|intros _; discriminate].
Qed.

Lemma axis_fatal_iff (nd : node) (name msg : string) :
  axis_distribution nd name = Fatal msg <->
  check_for_node nd name = true /\
  distribution_from_xml (child nd name) = Fatal msg.
Proof.
  unfold axis_distribution.
  destruct (check_for_node nd name).
  - split; [intros Hf; now split|intros [_ Hf]; exact Hf].
  - split; [discriminate|intros [Hc _]; discriminate].
Qed.

Lemma axis_absent (nd : node) (name : string) (d : Distribution D S) :
  check_for_node nd name = false ->
  axis_distribution nd name = Ok d -> d = Discrete [d_zero] [d_one] 1.
Proof.
  unfold axis_distribution. intros ->. now intros [= <-].
Qed.

Lemma CartesianIndependent_axes (nd : node) :
  CartesianIndependent.CartesianIndependent nd =
  (x <- axis_distribution nd "x" ;;
   y <- axis_distribution nd "y" ;;
   z <- axis_distribution nd "z" ;;
   Ok (CartesianIndependent.mk x y z))%result.
Proof. reflexivity. Qed.

Lemma CylindricalIndependent_axes (nd : node) :
  CylindricalIndependent.CylindricalIndependent nd =
  (r <- axis_distribution nd "r" ;;
   theta <- axis_distribution nd "theta" ;;
   z <- axis_distribution nd "z" ;;
   Ok (CylindricalIndependent.mk r theta z))%result.
Proof. reflexivity. Qed.

(** The outcome of three axes read one after the other. *)
Lemma three_axes_outcome {T : Type} (a b c : result (Distribution D S))
    (mk3 : Distribution D S -> Distribution D S -> Distribution D S -> T) :
  let r := (x <- a ;; y <- b ;; z <- c ;; Ok (mk3 x y z))%result in
  ((exists t, r = Ok t) <->
   (exists x, a = Ok x) /\ (exists y, b = Ok y) /\ (exists z, c = Ok z)) /\
  (forall x y z, a = Ok x -> b = Ok y -> c = Ok z -> r = Ok (mk3 x y z)) /\
  (forall msg, r = Fatal msg ->
     a = Fatal msg \/ b = Fatal msg \/ c = Fatal msg) /\
  (forall msg, a = Fatal msg -> r = Fatal msg) /\
  (forall msg x, a = Ok x -> b = Fatal msg -> r = Fatal msg) /\
  (forall msg x y, a = Ok x -> b = Ok y -> c = Fatal msg -> r = Fatal msg).
Proof.
  cbv zeta. destruct a as [x|ma], b as [y|mb], c as [z|mc]; cbn [rbind];
    (split; [split;
       [intros [t Ht]; try discriminate; repeat split; eexists; reflexivity
       |intros ([? Ha] & [? Hb] & [? Hc]); try discriminate;
        eexists; reflexivity]|]);
    repeat split; intros; try discriminate; try congruence;
    match goal with
    | Hf : Fatal _ = Fatal _ |- _ => injection Hf as <-
    end; tauto.
Qed.

End Axes.

Section AxesOutcome.
Context {D S node T : Type} `{Double D} `{Xml D S node}.
Variable nd : node.
Variables n1 n2 n3 : string.
Variable mk3 : Distribution D S -> Distribution D S -> Distribution D S -> T.

(** A child that the configuration has can be read. *)
Let readable (name : string) : Prop :=
  check_for_node nd name = true ->
  exists d, distribution_from_xml (child nd name) = Ok d.

Lemma per_axis_outcome :
  let r := (a <- axis_distribution nd n1 ;;
            b <- axis_distribution nd n2 ;;
            c <- axis_distribution nd n3 ;;
            Ok (mk3 a b c))%result in
  ((forall name, In name [n1; n2; n3] -> readable name) <->
   exists t, r = Ok t) /\
  (forall msg, r = Fatal msg ->
     exists name, In name [n1; n2; n3] /\
       check_for_node nd name = true /\
       distribution_from_xml (child nd name) = Fatal msg) /\
  (forall msg,
     check_for_node nd n1 = true ->
     distribution_from_xml (child nd n1) = Fatal msg -> r = Fatal msg) /\
  (forall msg,
     readable n1 ->
     check_for_node nd n2 = true ->
     distribution_from_xml (child nd n2) = Fatal msg -> r = Fatal msg) /\
  (forall msg,
     readable n1 -> readable n2 ->
     check_for_node nd n3 = true ->
     distribution_from_xml (child nd n3) = Fatal msg -> r = Fatal msg).
Proof.
  intros r.
  destruct (three_axes_outcome (axis_distribution nd n1)
              (axis_distribution nd n2) (axis_distribution nd n3) mk3)
    as (Hok & _ & Herr & H1f & H2f & H3f).
  fold r in Hok, Herr, H1f, H2f, H3f.
  unfold readable.
  split; [|split; [|split; [|split]]].
  - rewrite Hok, <- !axis_ok_iff. split.
    + intros Hall. repeat split; apply Hall; simpl; auto.
    + intros (Ha & Hb & Hc) name [<-|[<-|[<-|[]]]]; assumption.
  - intros msg Hr. destruct (Herr msg Hr) as [Hf|[Hf|Hf]];
      apply axis_fatal_iff in Hf; destruct Hf as [Hc Hd].
    + exists n1. simpl. auto.
    + exists n2. simpl. auto.
    + exists n3. simpl. auto.
  - intros msg Hc Hd. apply H1f. apply axis_fatal_iff. auto.
  - intros msg Hr1 Hc Hd. apply axis_ok_iff in Hr1. destruct Hr1 as [a Ha].
    apply (H2f msg a Ha). apply axis_fatal_iff. auto.
  - intros msg Hr1 Hr2 Hc Hd.
    apply axis_ok_iff in Hr1. destruct Hr1 as [a Ha].
    apply axis_ok_iff in Hr2. destruct Hr2 as [b Hb].
    apply (H3f msg a b Ha Hb). apply axis_fatal_iff. auto.
Qed.

End AxesOutcome.

(** X1.  The constructor of CartesianIndependent succeeds exactly when
    every child among x, y, z that the configuration has can be read: an
    axis the configuration does not name never makes it fail.  When it
    fails, the message is that of a child which is there and cannot be
    read, and it is the first such child in the order x, y, z. *)
Theorem CartesianIndependent_construction {D S node : Type} `{Double D}
    `{Xml D S node} (nd : node) :
  let readable := fun name =>
    check_for_node nd name = true ->
    exists d, distribution_from_xml (child nd name) = Ok d in
  ((forall name, In name ["x"; "y"; "z"] -> readable name) <->
   exists c, CartesianIndependent.CartesianIndependent nd = Ok c) /\
  (forall msg,
     CartesianIndependent.CartesianIndependent nd = Fatal msg ->
     exists name, In name ["x"; "y"; "z"] /\
       check_for_node nd name = true /\
       distribution_from_xml (child nd name) = Fatal msg) /\
  (forall msg,
     check_for_node nd "x" = true ->
     distribution_from_xml (child nd "x") = Fatal msg ->
     CartesianIndependent.CartesianIndependent nd = Fatal msg) /\
  (forall msg,
     readable "x" ->
     check_for_node nd "y" = true ->
     distribution_from_xml (child nd "y") = Fatal msg ->
     CartesianIndependent.CartesianIndependent nd = Fatal msg) /\
  (forall msg,
     readable "x" -> readable "y" ->
     check_for_node nd "z" = true ->
     distribution_from_xml (child nd "z") = Fatal msg ->
     CartesianIndependent.CartesianIndependent nd = Fatal msg).
Proof.
  cbv zeta. rewrite CartesianIndependent_axes.
  apply (per_axis_outcome nd "x" "y" "z" CartesianIndependent.mk).
Qed.

Lemma CartesianIndependent_construction_witness :
  CartesianIndependent.CartesianIndependent (S := nat) bad_x_node
  = Fatal "Invalid distribution.".
Proof.
  destruct (CartesianIndependent_construction (S := nat) bad_x_node)
    as (_ & _ & Hx & _).
  apply Hx; reflexivity.
Defined.

(** X2.  The constructor of CylindricalIndependent succeeds exactly when
    every child among r, theta, z that the configuration has can be read;
    when it fails, the message is that of the first child, in the order
    r, theta, z, which is there and cannot be read. *)
Theorem CylindricalIndependent_construction {D S node : Type} `{Double D}
    `{Xml D S node} (nd : node) :
  let readable := fun name =>
    check_for_node nd name = true ->
    exists d, distribution_from_xml (child nd name) = Ok d in
  ((forall name, In name ["r"; "theta"; "z"] -> readable name) <->
   exists c, CylindricalIndependent.CylindricalIndependent nd = Ok c) /\
  (forall msg,
     CylindricalIndependent.CylindricalIndependent nd = Fatal msg ->
     exists name, In name ["r"; "theta"; "z"] /\
       check_for_node nd name = true /\
       distribution_from_xml (child nd name) = Fatal msg) /\
  (forall msg,
     check_for_node nd "r" = true ->
     distribution_from_xml (child nd "r") = Fatal msg ->
     CylindricalIndependent.CylindricalIndependent nd = Fatal msg) /\
  (forall msg,
     readable "r" ->
     check_for_node nd "theta" = true ->
     distribution_from_xml (child nd "theta") = Fatal msg ->
     CylindricalIndependent.CylindricalIndependent nd = Fatal msg) /\
  (forall msg,
     readable "r" -> readable "theta" ->
     check_for_node nd "z" = true ->
     distribution_from_xml (child nd "z") = Fatal msg ->
     CylindricalIndependent.CylindricalIndependent nd = Fatal msg).
Proof.
  cbv zeta. rewrite CylindricalIndependent_axes.
  apply (per_axis_outcome nd "r" "theta" "z" CylindricalIndependent.mk).
Qed.

Lemma CylindricalIndependent_construction_witness :
  CylindricalIndependent.CylindricalIndependent (S := nat) bad_r_node
  = Fatal "Invalid distribution.".
Proof.
  destruct (CylindricalIndependent_construction (S := nat) bad_r_node)
    as (_ & _ & Hr & _).
  apply Hr; reflexivity.
Defined.

(** ** Axes that the configuration does not name *)

Lemma CartesianIndependent_built {D S node : Type} `{Double D}
    `{Xml D S node} (nd : node) (c : CartesianIndependent.t D S) :
  CartesianIndependent.CartesianIndependent nd = Ok c ->
  axis_distribution nd "x" = Ok (CartesianIndependent.x_ c) /\
  axis_distribution nd "y" = Ok (CartesianIndependent.y_ c) /\
  axis_distribution nd "z" = Ok (CartesianIndependent.z_ c).
Proof.
  rewrite CartesianIndependent_axes.
  destruct (axis_distribution nd "x"); [|discriminate].
  destruct (axis_distribution nd "y"); [|discriminate].
  destruct (axis_distribution nd "z"); [|discriminate].
  cbn [rbind]. intros [= <-]. repeat split.
Qed.

Lemma CylindricalIndependent_built {D S node : Type} `{Double D}
    `{Xml D S node} (nd : node) (c : CylindricalIndependent.t D S) :
  CylindricalIndependent.CylindricalIndependent nd = Ok c ->
  axis_distribution nd "r" = Ok (CylindricalIndependent.r_ c) /\
  axis_distribution nd "theta" = Ok (CylindricalIndependent.theta_ c) /\
  axis_distribution nd "z" = Ok (CylindricalIndependent.z_ c).
Proof.
  rewrite CylindricalIndependent_axes.
  destruct (axis_distribution nd "r"); [|discriminate].
  destruct (axis_distribution nd "theta"); [|discriminate].
  destruct (axis_distribution nd "z"); [|discriminate].
  cbn [rbind]. intros [= <-]. repeat split.
Qed.

(** X3.  On a CartesianIndependent built from a configuration, an axis the
    configuration does not name is 0 in every sample and takes nothing
    from the stream: the other two children are drawn from the seed as if
    the absent one were not there. *)
Theorem CartesianIndependent_absent_axis {D S node : Type} `{Double D}
    `{Xml D S node} (nd : node) (c : CartesianIndependent.t D S) (s : S) :
  CartesianIndependent.CartesianIndependent nd = Ok c ->
  (check_for_node nd "x" = false ->
   let ys := Distribution_sample (CartesianIndependent.y_ c) s in
   let zs := Distribution_sample (CartesianIndependent.z_ c) (snd ys) in
   CartesianIndependent.sample c s
   = (Position.mk d_zero (fst ys) (fst zs), snd zs)) /\
  (check_for_node nd "y" = false ->
   let xs := Distribution_sample (CartesianIndependent.x_ c) s in
   let zs := Distribution_sample (CartesianIndependent.z_ c) (snd xs) in
   CartesianIndependent.sample c s
   = (Position.mk (fst xs) d_zero (fst zs), snd zs)) /\
  (check_for_node nd "z" = false ->
   let xs := Distribution_sample (CartesianIndependent.x_ c) s in
   let ys := Distribution_sample (CartesianIndependent.y_ c) (snd xs) in
   CartesianIndependent.sample c s
   = (Position.mk (fst xs) (fst ys) d_zero, snd ys)).
Proof.
  intros Hc. destruct (CartesianIndependent_built nd c Hc) as (Hx & Hy & Hz).
  rewrite CartesianIndependent_sample_eq. unfold three_draws.
  repeat split; intros Habs; cbv zeta.
  - rewrite (axis_absent nd "x" _ Habs Hx). reflexivity.
  - rewrite (axis_absent nd "y" _ Habs Hy). reflexivity.
  - rewrite (axis_absent nd "z" _ Habs Hz). reflexivity.
Qed.

Lemma CartesianIndependent_absent_axis_witness :
  CartesianIndependent.CartesianIndependent z_only_node = Ok z_line /\
  CartesianIndependent.sample z_line 4%nat
  = (Position.mk 0 0 5, 4%nat)%float.
Proof.
  assert (Hc : CartesianIndependent.CartesianIndependent z_only_node
               = Ok z_line) by reflexivity.
  split; [exact Hc|].
  destruct (CartesianIndependent_absent_axis z_only_node z_line 4%nat Hc)
    as (Hx & _).
  rewrite (Hx eq_refl). reflexivity.
Defined.

(** X4.  On a CylindricalIndependent built from a configuration, an axis
    the configuration does not name is the number 0 in every sample and
    takes nothing from the stream: without a radius child the products are
    [0 * cos theta] and [0 * sin theta], without an angle child they are
    [r * cos 0] and [r * sin 0], without a z child the third component is
    0; the other two children are drawn from the seed as if the absent
    one were not there. *)
Theorem CylindricalIndependent_absent_axis {D S node : Type} `{Double D}
    `{Trig D} `{Xml D S node} (nd : node)
    (c : CylindricalIndependent.t D S) (s : S) :
  CylindricalIndependent.CylindricalIndependent nd = Ok c ->
  (check_for_node nd "r" = false ->
   let ts := Distribution_sample (CylindricalIndependent.theta_ c) s in
   let zs := Distribution_sample (CylindricalIndependent.z_ c) (snd ts) in
   CylindricalIndependent.sample c s
   = (Position.mk (d_mul d_zero (d_cos (fst ts)))
                  (d_mul d_zero (d_sin (fst ts))) (fst zs), snd zs)) /\
  (check_for_node nd "theta" = false ->
   let rs := Distribution_sample (CylindricalIndependent.r_ c) s in
   let zs := Distribution_sample (CylindricalIndependent.z_ c) (snd rs) in
   CylindricalIndependent.sample c s
   = (Position.mk (d_mul (fst rs) (d_cos d_zero))
                  (d_mul (fst rs) (d_sin d_zero)) (fst zs), snd zs)) /\
  (check_for_node nd "z" = false ->
   let rs := Distribution_sample (CylindricalIndependent.r_ c) s in
   let ts := Distribution_sample (CylindricalIndependent.theta_ c) (snd rs) in
   CylindricalIndependent.sample c s
   = (Position.mk (d_mul (fst rs) (d_cos (fst ts)))
                  (d_mul (fst rs) (d_sin (fst ts))) d_zero, snd ts)).
Proof.
  intros Hc. destruct (CylindricalIndependent_built nd c Hc) as (Hr & Ht & Hz).
  rewrite CylindricalIndependent_sample_eq. unfold three_draws.
  repeat split; intros Habs; cbv zeta.
  - rewrite (axis_absent nd "r" _ Habs Hr). reflexivity.
  - rewrite (axis_absent nd "theta" _ Habs Ht). reflexivity.
  - rewrite (axis_absent nd "z" _ Habs Hz). reflexivity.
Qed.

Lemma CylindricalIndependent_absent_axis_witness :
  CylindricalIndependent.CylindricalIndependent r_only_node = Ok ring_two /\
  @CylindricalIndependent.sample float nat _ zero_angle_Trig ring_two 7%nat
  = (Position.mk 2 0 0, 7%nat)%float.
Proof.
  assert (Hc : CylindricalIndependent.CylindricalIndependent r_only_node
               = Ok ring_two) by reflexivity.
  split; [exact Hc|].
  destruct (@CylindricalIndependent_absent_axis float nat (xml_tree float)
              _ zero_angle_Trig _ r_only_node ring_two 7%nat Hc)
    as (_ & Ht & _).
  rewrite (Ht eq_refl). reflexivity.
Defined.

(** ** From a point configuration to its samples *)

(** X5.  A configuration whose [parameters] are the three numbers a, b, c
    builds a SpatialPoint, and [N] calls of [sample] on it return
    (a, b, c) [N] times and leave the seed as it was, for any number type
    and any stream. *)
Theorem SpatialPoint_configured {D S node : Type} `{Double D}
    `{Xml D S node} (nd : node) (a b c : D) (N : nat) (s : S) :
  get_node_array nd "parameters" = Ok [a; b; c] ->
  exists p,
    SpatialPoint.SpatialPoint nd = Ok p /\
    draws N (SpatialPoint.sample p) s = (repeat (Position.mk a b c) N, s).
Proof.
  intros Hp. unfold SpatialPoint.SpatialPoint. rewrite Hp. cbn [rbind].
  eexists. split; [reflexivity|].
  rewrite SpatialPoint_draws. reflexivity.
Qed.

Lemma SpatialPoint_configured_witness :
  exists p : SpatialPoint.t float,
    SpatialPoint.SpatialPoint (S := nat) three_numbers = Ok p /\
    draws 2 (SpatialPoint.sample p) 9%nat
    = ([Position.mk 1 2 3; Position.mk 1 2 3], 9%nat)%float.
Proof.
  apply (SpatialPoint_configured (S := nat) three_numbers 1 2 3 2 9%nat)%float.
  reflexivity.
Defined.

(** ** The box sampler beyond ordered corners *)

Section BoxHull.
Context {S : Type} `{Rng float S}.

Lemma float_between (lo hi xi : float) :
  is_finite (hi - lo)%float = true ->
  (0 <=? xi)%float = true /\ (xi <? 1)%float = true ->
  between lo (lo + xi * (hi - lo))%float hi = true.
Proof.
  intros Hfin [H0 H1]. unfold between, within.
  apply orb_true_iff. rewrite !andb_true_iff.
  destruct (float_ordered lo hi Hfin) as [Hle|Hle].
  - left. exact (float_interpolate lo hi xi Hle Hfin H0 H1).
  - right. exact (float_interpolate_rev lo hi xi Hle Hfin H0 H1).
Qed.

Lemma float_box_point_flat (b : SpatialBox.t float) (k : nat) (s : S) :
  SpatialBox.lower_left_ b = SpatialBox.upper_right_ b ->
  finite_position (SpatialBox.lower_left_ b) = true ->
  finite_stream S ->
  same_position (box_point b k s) (SpatialBox.lower_left_ b) = true /\
  (nonzero_position (SpatialBox.lower_left_ b) = true ->
   box_point b k s = SpatialBox.lower_left_ b).
Proof.
  intros Heq Hfin Hs. unfold box_point. rewrite <- Heq.
  destruct (SpatialBox.lower_left_ b) as [lx ly lz].
  unfold finite_position in Hfin. cbn [Position.x Position.y Position.z] in Hfin.
  rewrite !andb_true_iff in Hfin. destruct Hfin as [[Fx Fy] Fz].
  destruct (float_flat lx (stream_nth k s) Fx (Hs _)) as [Ex Lx].
  destruct (float_flat ly (stream_nth (k + 1) s) Fy (Hs _)) as [Ey Ly].
  destruct (float_flat lz (stream_nth (k + 2) s) Fz (Hs _)) as [Ez Lz].
  split.
  - unfold same_position. cbn. rewrite !andb_true_iff. auto.
  - unfold nonzero_position. cbn [Position.x Position.y Position.z].
    rewrite !andb_true_iff, !negb_true_iff. intros [[Nx Ny] Nz].
    unfold Position.add, Position.mul, Position.sub.
    cbn [Position.x Position.y Position.z].
    f_equal; [exact (Lx Nx)|exact (Ly Ny)|exact (Lz Nz)].
Qed.

End BoxHull.

(** X6.  In binary64 and with a stream in [0, 1): when [upper - lower] is
    a finite number on each axis, every point that [N] calls of [sample]
    return lies, on each axis, between the two corner values of the box,
    whichever of them is the larger.  Corners given the wrong way round
    are sampled between all the same. *)
Theorem SpatialBox_sample_in_hull {S : Type} `{Rng float S}
    (b : SpatialBox.t float) (N : nat) (s : S) :
  finite_width b = true -> unit_stream float S ->
  Forall (fun p => in_hull b p = true)
         (fst (draws N (SpatialBox.sample b) s)).
Proof.
  intros Hw Hu. rewrite SpatialBox_draws_eq. cbn [fst].
  apply List.Forall_forall. intros p Hin.
  apply in_map_iff in Hin. destruct Hin as (i & <- & _).
  unfold finite_width in Hw. rewrite !andb_true_iff in Hw.
  destruct Hw as [[Wx Wy] Wz].
  unfold in_hull. rewrite !andb_true_iff.
  repeat split; apply float_between; try assumption;
    apply float_unit_stream_nth; assumption.
Qed.

Lemma SpatialBox_sample_in_hull_witness :
  Forall (fun p => in_hull reversed_box p = true)
         (fst (draws 3 (SpatialBox.sample reversed_box) 0%nat)).
Proof.
  apply (SpatialBox_sample_in_hull reversed_box 3 0%nat eq_refl
           half_unit_stream_float).
Defined.

Lemma map_constant {A B : Type} (f : A -> B) (v : B) (l : list A) :
  (forall a, f a = v) -> map f l = repeat v (length l).
Proof.
  intros Hf. induction l as [|a l IH]; [reflexivity|].
  cbn [map length repeat]. now rewrite Hf, IH.
Qed.

Lemma half_finite_stream : finite_stream nat.
Proof. intros s. reflexivity. Qed.

(** X8.  In binary64, a box whose two corners are the same finite point
    returns, at every call and whatever finite numbers the stream holds,
    a point that compares equal to that corner on each axis; when no
    component of the corner is a zero the point returned is the corner
    itself, and [N] calls return it [N] times and leave the seed [3N]
    draws further.  (A corner component -0 comes back as +0 when the
    number drawn is positive.) *)
Theorem SpatialBox_without_volume {S : Type} `{Rng float S}
    (b : SpatialBox.t float) (N : nat) (s : S) :
  SpatialBox.lower_left_ b = SpatialBox.upper_right_ b ->
  finite_position (SpatialBox.lower_left_ b) = true ->
  finite_stream S ->
  Forall (fun p => same_position p (SpatialBox.lower_left_ b) = true)
         (fst (draws N (SpatialBox.sample b) s)) /\
  (nonzero_position (SpatialBox.lower_left_ b) = true ->
   draws N (SpatialBox.sample b) s
   = (repeat (SpatialBox.lower_left_ b) N, advance (3 * N) s)).
Proof.
  intros Heq Hfin Hs. rewrite SpatialBox_draws_eq. cbn [fst]. split.
  - apply List.Forall_forall. intros p Hin.
    apply in_map_iff in Hin. destruct Hin as (i & <- & _).
    now apply float_box_point_flat.
  - intros Hnz. f_equal.
    rewrite (map_constant _ (SpatialBox.lower_left_ b)).
    + now rewrite length_seq.
    + intros i. now apply float_box_point_flat.
Qed.

Lemma SpatialBox_without_volume_witness :
  draws 2 (SpatialBox.sample flat_box) 0%nat
  = ([Position.mk 1 2 3; Position.mk 1 2 3]%float, 6%nat).
Proof.
  destruct (SpatialBox_without_volume flat_box 2 0%nat eq_refl eq_refl
              half_finite_stream) as [_ Hall].
  rewrite (Hall eq_refl). reflexivity.
Defined.

(** ** The cylindrical sampler and its radius *)

(** X9.  In binary64, when the radius drawn is a finite number and the
    cosine of the angle drawn has magnitude at most 1, the x of the sample
    has magnitude at most that of the radius, for any radius, negative
    ones included: the rounding of [r * cos theta] never takes it beyond
    [r].  The same holds of y and the sine. *)
Theorem CylindricalIndependent_within_radius {S : Type} `{Trig float}
    (c : CylindricalIndependent.t float S) (s : S) :
  let rs := Distribution_sample (CylindricalIndependent.r_ c) s in
  let ts := Distribution_sample (CylindricalIndependent.theta_ c) (snd rs) in
  let p := fst (CylindricalIndependent.sample c s) in
  is_finite (fst rs) = true ->
  ((abs (d_cos (fst ts)) <=? 1)%float = true ->
   (abs (Position.x p) <=? abs (fst rs))%float = true) /\
  ((abs (d_sin (fst ts)) <=? 1)%float = true ->
   (abs (Position.y p) <=? abs (fst rs))%float = true).
Proof.
  cbv zeta. rewrite CylindricalIndependent_sample_eq. unfold three_draws.
  cbn [fst snd Position.x Position.y]. intros Hr.
  split; intros Hc; apply float_mul_le; assumption.
Qed.

Lemma CylindricalIndependent_within_radius_witness :
  (abs (Position.x
          (fst (@CylindricalIndependent.sample float nat _ zero_angle_Trig
                  ring_two 0%nat))) <=? 2)%float = true.
Proof.
  destruct (@CylindricalIndependent_within_radius nat zero_angle_Trig
              ring_two 0%nat eq_refl) as [Hx _].
  apply Hx. reflexivity.
Defined.

(** ** Batches of box samples *)

Lemma map_seq_from {B : Type} (f : nat -> B) (n m : nat) :
  map f (seq n m) = map (fun i => f (n + i)%nat) (seq 0 m).
Proof.
  revert f. induction n as [|n IH]; intros f; [reflexivity|].
  rewrite <- seq_shift, map_map. apply IH.
Qed.

(** X10.  For any number type, binary64 included, and any stream: the
    [i]-th of [N] successive box samples is the sample a single call
    returns from the seed advanced by [3i] draws, the seed after the batch
    is advanced by [3N] draws, and a batch of [N + M] calls returns what a
    batch of [N] followed by a batch of [M] from the seed it left
    returns. *)
Theorem SpatialBox_draws_resume {D S : Type} `{Double D} `{Rng D S}
    (b : SpatialBox.t D) (N M : nat) (s : S) :
  snd (draws N (SpatialBox.sample b) s) = advance (3 * N) s /\
  (forall i, (i < N)%nat ->
     fst (draws N (SpatialBox.sample b) s) !! i
     = Some (fst (SpatialBox.sample b (advance (3 * i) s)))) /\
  draws (N + M) (SpatialBox.sample b) s
  = ((fst (draws N (SpatialBox.sample b) s)
      ++ fst (draws M (SpatialBox.sample b)
                (snd (draws N (SpatialBox.sample b) s))))%list,
     snd (draws M (SpatialBox.sample b)
            (snd (draws N (SpatialBox.sample b) s)))).
Proof.
  rewrite !SpatialBox_draws_eq. cbn [fst snd].
  split; [reflexivity|]. split.
  - intros i Hi. rewrite list_lookup_fmap, lookup_seq_lt by exact Hi.
    cbn [fmap option_fmap option_map]. f_equal.
    rewrite SpatialBox_sample_eq, box_point_advance. cbn [fst].
    f_equal. lia.
  - f_equal.
    + rewrite seq_app, map_app. f_equal.
      rewrite map_seq_from. apply map_ext. intros i.
      rewrite box_point_advance. f_equal. lia.
    + rewrite <- advance_add. f_equal. lia.
Qed.

Lemma SpatialBox_draws_resume_witness :
  fst (draws 2 (SpatialBox.sample huge_box) 0%nat) !! 1%nat
  = Some (fst (SpatialBox.sample huge_box 3%nat)).
Proof.
  destruct (SpatialBox_draws_resume huge_box 2 0 0%nat) as (_ & Hi & _).
  apply (Hi 1%nat). lia.
Defined.
